(** * capnslog/logmap.go: the log-level registry

    A shallow embedding of [capnslog/logmap.go] and the properties of its
    level parser, its configuration parser and its registry of package
    loggers.

    Go values are modelled as follows.
    - [LogLevel] (an [int8]) is a [Z]; the seven constants keep their values.
    - A Go [string] is a sequence of bytes, here a [string] of [ascii].
    - An [error] is [nil] or a message: [option string].
    - A Go map is a reference: the registry keeps a heap of map objects
      and a heap of [packageLogger] objects, and handles are addresses.
    - [panic] and a second [Lock] of the held mutex are outcomes of a small
      state monad; the heap survives a panic, as it does in Go. *)

From Stdlib Require Import ZArith Lia Ascii.
From stdpp Require Import base option list strings gmap.

Local Open Scope Z_scope.

(** ** Log levels *)

(** [type LogLevel int8] *)
Abbreviation LogLevel := Z (only parsing).

Definition CRITICAL : LogLevel := -1.
Definition ERROR : LogLevel := 0.
Definition WARNING : LogLevel := 1.
Definition NOTICE : LogLevel := 2.
Definition INFO : LogLevel := 3.
Definition DEBUG : LogLevel := 4.
Definition TRACE : LogLevel := 5.

(** The constants of the [const] block, in declaration order. *)
Definition Levels : list LogLevel :=
  [CRITICAL; ERROR; WARNING; NOTICE; INFO; DEBUG; TRACE].

(** ** Outcomes of a call

    A Go call returns, panics with a value, or (on a mutex that is already
    held, with a single thread of control) never returns. *)
Inductive outcome (A : Type) : Type :=
  | Return (a : A)
  | Panic (v : string)
  | Blocked.
Arguments Return {A} a.
Arguments Panic {A} v.
Arguments Blocked {A}.

(** [error]: [None] is [nil], [Some msg] is [errors.New(msg)]. *)
Abbreviation error := (option string) (only parsing).
Definition errors_New (msg : string) : error := Some msg.

(** [func (l LogLevel) Char() string] *)
Definition Char (l : LogLevel) : outcome string :=
  if l =? CRITICAL then Return "C"
  else if l =? ERROR then Return "E"
  else if l =? WARNING then Return "W"
  else if l =? NOTICE then Return "N"
  else if l =? INFO then Return "I"
  else if l =? DEBUG then Return "D"
  else if l =? TRACE then Return "T"
  else Panic "Unhandled loglevel".

(** One [case] of a string [switch]: the tag equals one of the listed
    constants. *)
Definition case_of (s : string) (alts : list string) : bool :=
  existsb (String.eqb s) alts.

(** [func ParseLevel(s string) (LogLevel, error)] *)
Definition ParseLevel (s : string) : LogLevel * error :=
  if case_of s ["CRITICAL"; "C"] then (CRITICAL, None)
  else if case_of s ["ERROR"; "0"; "E"] then (ERROR, None)
  else if case_of s ["WARNING"; "1"; "W"] then (WARNING, None)
  else if case_of s ["NOTICE"; "2"; "N"] then (NOTICE, None)
  else if case_of s ["INFO"; "3"; "I"] then (INFO, None)
  else if case_of s ["DEBUG"; "4"; "D"] then (DEBUG, None)
  else if case_of s ["TRACE"; "5"; "T"] then (TRACE, None)
  else (CRITICAL, errors_New ("couldn't parse log level " +:+ s)).

(** Modelled from the spec: the canonical uppercase name of a level, the
    Name column of the table of section 4.1 (this file has no [String]
    method). *)
Definition level_name (l : LogLevel) : option string :=
  if l =? CRITICAL then Some "CRITICAL"
  else if l =? ERROR then Some "ERROR"
  else if l =? WARNING then Some "WARNING"
  else if l =? NOTICE then Some "NOTICE"
  else if l =? INFO then Some "INFO"
  else if l =? DEBUG then Some "DEBUG"
  else if l =? TRACE then Some "TRACE"
  else None.

(** The decimal digit of a number below ten, as a one-byte string. *)
Definition digit_string (n : Z) : string :=
  String (Ascii.ascii_of_nat (48 + Z.to_nat n)) EmptyString.

(** Modelled from the spec: the Digit column of the table of section 4.1,
    the decimal index of ERROR through TRACE; CRITICAL has none. *)
Definition level_digit (l : LogLevel) : option string :=
  if (ERROR <=? l) && (l <=? TRACE) then Some (digit_string l) else None.

(** [s] occurs in [msg] as a substring. *)
Definition mentions (msg s : string) : Prop :=
  exists pre post : string, msg = pre +:+ s +:+ post.

(** ** [strings.Split] with a one-byte separator

    [strings.Split(s, sep)] cuts [s] at every occurrence of [sep] and
    returns the pieces in order, one more than there are separators; the
    empty string gives one empty piece. Both call sites pass a one-byte
    separator. *)
Definition cons_head (c : ascii) (l : list string) : list string :=
  match l with
  | [] => [String c EmptyString]
  | h :: t => String c h :: t
  end.

Fixpoint Split (s : string) (sep : ascii) : list string :=
  match s with
  | EmptyString => [EmptyString]
  | String c s' =>
      if Ascii.eqb c sep then EmptyString :: Split s' sep
      else cons_head c (Split s' sep)
  end.

(** ** The configuration parser *)

(** The body of the [for _, setstring := range setlist] loop of
    [ParseLogLevelConfig], with the map [out] built so far. A [nil] map is
    [None]. *)
Fixpoint ParseLogLevelConfig_loop (setlist : list string)
    (out : gmap string Z) : option (gmap string Z) * error :=
  match setlist with
  | [] => (Some out, None)
  | setstring :: rest =>
      let setting := Split setstring "="%char in
      if negb (Nat.eqb (length setting) 2) then
        (None, errors_New ("oddly structured `pkg=level` option: " +:+ setstring))
      else
        let '(l, err) := ParseLevel (nth 1 setting EmptyString) in
        match err with
        | Some e => (None, Some e)
        | None =>
            ParseLogLevelConfig_loop rest (<[nth 0 setting EmptyString := l]> out)
        end
  end.

(** [func (r repoLogger) ParseLogLevelConfig(conf string)
    (map[string]LogLevel, error)]. The receiver is not used. *)
Definition ParseLogLevelConfig (r : option nat) (conf : string)
    : option (gmap string Z) * error :=
  let setlist := Split conf ","%char in
  ParseLogLevelConfig_loop setlist ∅.

(** A token of the form [pkg=level] whose level part parses. *)
Definition token_ok (t : string) : Prop :=
  exists (k v : string) (l : LogLevel),
    Split t "="%char = [k; v] /\ ParseLevel v = (l, None).

(** What a well-formed token adds to the map: [out[setting[0]] = l]. *)
Definition add_token (out : gmap string Z) (t : string) : gmap string Z :=
  <[nth 0 (Split t "="%char) EmptyString :=
      (ParseLevel (nth 1 (Split t "="%char) EmptyString)).1]> out.

(** The strings of a level: its name, its character and its digit. *)
Definition forms_of (l : LogLevel) : list string :=
  option_list (level_name l)
  ++ match Char l with Return c => [c] | _ => [] end
  ++ option_list (level_digit l).

(** Every accepted spelling of a level. *)
Definition accepted_forms : list string := flat_map forms_of Levels.

(** The two parts of a token, as the loop reads them: [setting[0]] and
    the level [ParseLevel] returns for [setting[1]]. *)
Definition token_name (t : string) : string :=
  nth 0 (Split t "="%char) EmptyString.

Definition token_level (t : string) : LogLevel :=
  (ParseLevel (nth 1 (Split t "="%char) EmptyString)).1.

(** The byte [c] occurs in [s]. *)
Fixpoint has_byte (c : ascii) (s : string) : bool :=
  match s with
  | EmptyString => false
  | String x s' => Ascii.eqb x c || has_byte c s'
  end.

(** ** The registry state *)

(** A [*packageLogger] and a [repoLogger] (a map, which Go passes by
    reference) are [nil] or the address of an object: [None] or [Some a]. *)
Abbreviation pointer := (option nat) (only parsing).
Abbreviation repoLogger := (option nat) (only parsing).

(** The fields of [packageLogger] that [NewPackageLogger] initialises. *)
Record packageLogger : Type := mkPackageLogger {
  pkg : string;
  level : LogLevel
}.

(** The order in which a [range] statement visits the entries of a map is
    not specified by Go: it is some enumeration of the entries, each one
    once. The properties below hold for every such choice of order. *)
Class RangeOrder : Type := {
  range : forall V : Type, gmap string V -> list (string * V);
  range_perm : forall (V : Type) (m : gmap string V), range V m ≡ₚ map_to_list m
}.
Arguments range {_ V} m.

(** One admissible order, used to run the model on concrete inputs. *)
Definition listed_order : RangeOrder :=
  {| range := fun V => map_to_list;
     range_perm := fun V m => reflexivity (map_to_list m) |}.

(** ** What the loops compute on the heap of objects *)

Definition with_level (l : LogLevel) (v : packageLogger) : packageLogger :=
  {| pkg := pkg v; level := l |}.

(** The heap after [p.level = l], when [p] points to an object. *)
Definition assign_level (l : LogLevel) (os : list packageLogger)
    (p : pointer) : list packageLogger :=
  match p with
  | Some b =>
      match os !! b with
      | Some v => <[b := with_level l v]> os
      | None => os
      end
  | None => os
  end.

(** The heap after one round of the second loop of [SetLogLevel] on the
    entries [e] of the receiver: names that [e] lacks are skipped. *)
Definition assign_entry (e : gmap string pointer) (os : list packageLogger)
    (kv : string * LogLevel) : list packageLogger :=
  match e !! kv.1 with
  | Some p => assign_level kv.2 os p
  | None => os
  end.

(** The level [SetLogLevel] with the map [m] leaves in the package named
    [k], whose level was [old]: the level [m] gives [k], else the level
    [m] gives the name *, else [old]. *)
Definition requested (m : gmap string Z) (k : string) (old : LogLevel) : LogLevel :=
  match m !! k with
  | Some v => v
  | None => default old (m !! "*")
  end.

Section registry.

(** [Formatter] is an interface declared elsewhere in the package; the
    registry only stores a value of it. *)
Context {Formatter : Type}.
Context `{order : RangeOrder}.

(** [loggerStruct]: the embedded [sync.Mutex] ([mu] is true while it is
    held), [repoMap] ([None] while it is the [nil] map; it is never handed
    out, so it is kept by value) and [formatter] ([None] for the [nil]
    interface). *)
Record loggerStruct : Type := mkLoggerStruct {
  mu : bool;
  repoMap : option (gmap string repoLogger);
  formatter : option Formatter
}.

(** The process state: the global [logger], the [repoLogger] map objects
    made so far and the [packageLogger] objects allocated so far. An
    address is an index into its heap. *)
Record state : Type := mkState {
  logger : loggerStruct;
  maps : list (gmap string pointer);
  objs : list packageLogger
}.

(** [var logger = new(loggerStruct)] *)
Definition init : state :=
  {| logger := {| mu := false; repoMap := None; formatter := None |};
     maps := [];
     objs := [] |}.

Definition set_mu (b : bool) (s : state) : state :=
  {| logger := {| mu := b; repoMap := repoMap (logger s);
                  formatter := formatter (logger s) |};
     maps := maps s; objs := objs s |}.

Definition set_repoMap (rm : option (gmap string repoLogger)) (s : state) : state :=
  {| logger := {| mu := mu (logger s); repoMap := rm;
                  formatter := formatter (logger s) |};
     maps := maps s; objs := objs s |}.

Definition set_formatter (f : option Formatter) (s : state) : state :=
  {| logger := {| mu := mu (logger s); repoMap := repoMap (logger s);
                  formatter := f |};
     maps := maps s; objs := objs s |}.

Definition set_maps (ms : list (gmap string pointer)) (s : state) : state :=
  {| logger := logger s; maps := ms; objs := objs s |}.

Definition set_objs (os : list packageLogger) (s : state) : state :=
  {| logger := logger s; maps := maps s; objs := os |}.

(** ** The monad of calls *)

Definition M (A : Type) : Type := state -> outcome A * state.

Definition ret {A : Type} (a : A) : M A := fun s => (Return a, s).

Definition bind {A B : Type} (m : M A) (k : A -> M B) : M B := fun s =>
  match m s with
  | (Return a, s') => k a s'
  | (Panic v, s') => (Panic v, s')
  | (Blocked, s') => (Blocked, s')
  end.

Definition panic {A : Type} (v : string) : M A := fun s => (Panic v, s).

Definition gets {A : Type} (f : state -> A) : M A := fun s => (Return (f s), s).

Definition modify (f : state -> state) : M unit := fun s => (Return tt, f s).

(** [defer d]: [d] runs when the body returns or panics. *)
Definition defer {A : Type} (d : M unit) (body : M A) : M A := fun s =>
  match body s with
  | (Blocked, s') => (Blocked, s')
  | (o, s') =>
      match d s' with
      | (Return _, s'') => (o, s'')
      | (Panic v, s'') => (Panic v, s'')
      | (Blocked, s'') => (Blocked, s'')
      end
  end.

(** [for _, x := range l { body }] over the entries in the order visited. *)
Fixpoint for_each {A : Type} (l : list A) (body : A -> M unit) : M unit :=
  match l with
  | [] => ret tt
  | x :: l' => bind (body x) (fun _ => for_each l' body)
  end.

#[export] Instance M_ret : MRet M := @ret.
#[export] Instance M_bind : MBind M := fun A B k m => bind m k.

(** [logger.Lock()] and [logger.Unlock()] *)
Definition Lock : M unit := fun s =>
  if mu (logger s) then (Blocked, s) else (Return tt, set_mu true s).

Definition Unlock : M unit := fun s =>
  if mu (logger s) then (Return tt, set_mu false s)
  else (Panic "sync: unlock of unlocked mutex", s).

Definition nil_dereference : string :=
  "invalid memory address or nil pointer dereference".

(** [v, ok := m[k]]: the zero value and [false] when [k] is absent. *)
Definition index {V : Type} (zero : V) (m : gmap string V) (k : string) : V * bool :=
  match m !! k with
  | Some v => (v, true)
  | None => (zero, false)
  end.

(** The entries of the map behind [r]; a [nil] map reads as the empty map. *)
Definition entries (r : repoLogger) : M (gmap string pointer) := fun s =>
  match r with
  | None => (Return ∅, s)
  | Some a =>
      match maps s !! a with
      | Some m => (Return m, s)
      | None => (Panic nil_dereference, s)
      end
  end.

(** [make(repoLogger)] *)
Definition make_repoLogger : M repoLogger := fun s =>
  (Return (Some (length (maps s))), set_maps (maps s ++ [∅]) s).

(** [r[k] = p] *)
Definition assign (r : repoLogger) (k : string) (p : pointer) : M unit := fun s =>
  match r with
  | None => (Panic "assignment to entry in nil map", s)
  | Some a =>
      match maps s !! a with
      | Some m => (Return tt, set_maps (<[a := <[k := p]> m]> (maps s)) s)
      | None => (Panic nil_dereference, s)
      end
  end.

(** [logger.repoMap[repo] = r] *)
Definition assign_repoMap (repo : string) (r : repoLogger) : M unit := fun s =>
  match repoMap (logger s) with
  | None => (Panic "assignment to entry in nil map", s)
  | Some rm => (Return tt, set_repoMap (Some (<[repo := r]> rm)) s)
  end.

(** [&packageLogger{...}] *)
Definition new_packageLogger (v : packageLogger) : M pointer := fun s =>
  (Return (Some (length (objs s))), set_objs (objs s ++ [v]) s).

(** [p.level] *)
Definition load_level (p : pointer) : M LogLevel := fun s =>
  match p ≫= (objs s !!.) with
  | Some v => (Return (level v), s)
  | None => (Panic nil_dereference, s)
  end.

(** [p.level = l] *)
Definition store_level (p : pointer) (l : LogLevel) : M unit := fun s =>
  match p with
  | Some a =>
      match objs s !! a with
      | Some v =>
          (Return tt,
           set_objs (<[a := {| pkg := pkg v; level := l |}]> (objs s)) s)
      | None => (Panic nil_dereference, s)
      end
  | None => (Panic nil_dereference, s)
  end.

(** ** The functions of the registry *)

(** [func (r repoLogger) setRepoLogLevelInternal(l LogLevel)] *)
Definition setRepoLogLevelInternal (r : repoLogger) (l : LogLevel) : M unit :=
  m ← entries r;
  for_each (range m) (fun '(_, v) => store_level v l).

(** [func SetGlobalLogLevel(l LogLevel)] *)
Definition SetGlobalLogLevel (l : LogLevel) : M unit :=
  Lock ;;
  defer Unlock (
    rm ← gets (fun s => repoMap (logger s));
    for_each (range (default ∅ rm)) (fun '(_, r) => setRepoLogLevelInternal r l)).

(** [func RepoLogger(repo string) (repoLogger, error)] *)
Definition RepoLogger (repo : string) : M (repoLogger * error) :=
  Lock ;;
  defer Unlock (
    rm ← gets (fun s => repoMap (logger s));
    let '(r, ok) := index None (default ∅ rm) repo in
    if negb ok then
      ret (None, errors_New ("no packages registered for repo " +:+ repo))
    else ret (r, None)).

(** [func MustRepoLogger(repo string) repoLogger]; [panic(err)] carries the
    error, here its message. *)
Definition MustRepoLogger (repo : string) : M repoLogger :=
  '(r, err) ← RepoLogger repo;
  match err with
  | Some e => panic e
  | None => ret r
  end.

(** [func (r repoLogger) SetRepoLogLevel(l LogLevel)] *)
Definition SetRepoLogLevel (r : repoLogger) (l : LogLevel) : M unit :=
  Lock ;;
  defer Unlock (setRepoLogLevelInternal r l).

(** [func (r repoLogger) SetLogLevel(m map[string]LogLevel)] *)
Definition SetLogLevel (r : repoLogger) (m : gmap string Z) : M unit :=
  Lock ;;
  defer Unlock (
    (let '(l, ok) := index 0 m "*" in
     if ok then setRepoLogLevelInternal r l else ret tt) ;;
    for_each (range m) (fun '(k, v) =>
      e ← entries r;
      let '(l, ok) := index None e k in
      if negb ok then ret tt
      else store_level l v)).

(** [func SetFormatter(f Formatter)] *)
Definition SetFormatter (f : option Formatter) : M unit :=
  Lock ;;
  defer Unlock (modify (set_formatter f)).

(** [func NewPackageLogger(repo string, pkg string) (p *packageLogger)] *)
Definition NewPackageLogger (repo : string) (pkg : string) : M pointer :=
  Lock ;;
  defer Unlock (
    rm ← gets (fun s => repoMap (logger s));
    (if rm is None then modify (set_repoMap (Some ∅)) else ret tt) ;;
    rm ← gets (fun s => repoMap (logger s));
    let '(r, rok) := index None (default ∅ rm) repo in
    r ← (if negb rok then
           r0 ← make_repoLogger;
           assign_repoMap repo r0 ;;
           rm ← gets (fun s => repoMap (logger s));
           ret (fst (index None (default ∅ rm) repo))
         else ret r);
    e ← entries r;
    let '(p, pok) := index None e pkg in
    if negb pok then
      p0 ← new_packageLogger {| pkg := pkg; level := INFO |};
      assign r pkg p0 ;;
      e ← entries r;
      ret (fst (index None e pkg))
    else ret p).

(** The method [ParseLogLevelConfig] as a call: it touches no state. *)
Definition ParseLogLevelConfig_call (r : repoLogger) (conf : string)
    : M (option (gmap string Z) * error) :=
  ret (ParseLogLevelConfig r conf).

(** ** Reading the state *)

(** The level stored behind a [*packageLogger]. *)
Definition level_of (s : state) (p : pointer) : option LogLevel :=
  level <$> (p ≫= (objs s !!.)).

(** The entries of the map behind a [repoLogger] handle. *)
Definition packages (s : state) (r : repoLogger) : gmap string pointer :=
  default ∅ (r ≫= (maps s !!.)).

(** [logger.repoMap[repo]], when present. *)
Definition repo_of (s : state) (repo : string) : option repoLogger :=
  repoMap (logger s) ≫= (.!! repo).

(** [logger.repoMap[repo][pkg]], when present. *)
Definition package_of (s : state) (repo pkg : string) : option pointer :=
  repo_of s repo ≫= (fun r => packages s r !! pkg).

(** The states the registry can be in between two calls: the mutex is
    free, every registered [repoLogger] is a map that was made, every entry
    of such a map points to an allocated [packageLogger], and two names of
    one map never share an object. *)
Record wf (s : state) : Prop := mkWf {
  wf_mu : mu (logger s) = false;
  wf_repos : forall rm repo r,
    repoMap (logger s) = Some rm -> rm !! repo = Some r ->
    exists a, r = Some a /\ (a < length (maps s))%nat;
  wf_entries : forall a e k p,
    maps s !! a = Some e -> e !! k = Some p ->
    exists b, p = Some b /\ (b < length (objs s))%nat;
  wf_inj : forall a e k k' p,
    maps s !! a = Some e -> e !! k = Some p -> e !! k' = Some p -> k = k'
}.

(** The handle [r] is [nil] or a map that was made, and its entries all
    point to objects. *)
Definition sound_handle (s : state) (r : repoLogger) : Prop :=
  (forall a, r = Some a -> is_Some (maps s !! a)) /\
  (forall k p, packages s r !! k = Some p ->
     exists b, p = Some b /\ (b < length (objs s))%nat).

(** [s'] differs from [s] at most in the levels of the objects. *)
Definition same_shape (s s' : state) : Prop :=
  logger s' = logger s /\ maps s' = maps s /\
  length (objs s') = length (objs s) /\
  forall b, pkg <$> objs s' !! b = pkg <$> objs s !! b.

(** The pointers [SetGlobalLogLevel] assigns through, in the order of its
    two nested loops. *)
Definition global_targets (s : state) : list pointer :=
  range (default ∅ (repoMap (logger s))) ≫=
    (fun kr => (range (packages s kr.2)).*2).

(** The heap of objects after [SetLogLevel] with the map [m] on a
    receiver with entries [e]: the blanket assignment for the name *, when
    [m] has it, then one round per entry of [m]. *)
Definition levels_after (e : gmap string pointer) (m : gmap string Z)
    (os : list packageLogger) : list packageLogger :=
  foldl (assign_entry e)
    (match m !! "*" with
     | Some l => foldl (assign_level l) os (range e).*2
     | None => os
     end)
    (range m).

(** The state after registering a new package in the map at [a]. *)
Definition with_package (a : nat) (e : gmap string (option nat)) (pkg : string)
    (s : state) : state :=
  set_maps (<[a := <[pkg := Some (length (objs s))]> e]> (maps s))
    (set_objs (objs s ++ [{| pkg := pkg; level := INFO |}]) s).

(** The state after registering the first package of a repository. *)
Definition with_repo (repo pkg : string) (s : state) : state :=
  {| logger :=
       {| mu := mu (logger s);
          repoMap := Some (<[repo := Some (length (maps s))]>
                             (default ∅ (repoMap (logger s))));
          formatter := formatter (logger s) |};
     maps := maps s ++ [{[pkg := Some (length (objs s))]}];
     objs := objs s ++ [{| pkg := pkg; level := INFO |}] |}.

(** A computation that does not wait for the mutex and changes at most
    the levels of the objects, whether it returns or panics. *)
Definition keeps_shape {A : Type} (m : M A) : Prop :=
  forall s, (m s).1 <> Blocked /\ same_shape s (m s).2.

(** ** Histories of calls *)

(** The exported functions, as a client can call them. *)
Inductive call : Type :=
  | call_SetGlobalLogLevel (l : LogLevel)
  | call_RepoLogger (repo : string)
  | call_MustRepoLogger (repo : string)
  | call_SetRepoLogLevel (r : repoLogger) (l : LogLevel)
  | call_ParseLogLevelConfig (r : repoLogger) (conf : string)
  | call_SetLogLevel (r : repoLogger) (m : gmap string Z)
  | call_SetFormatter (f : option Formatter)
  | call_NewPackageLogger (repo pkg : string).

(** The state a call leaves behind, whether it returns or panics. *)
Definition exec (c : call) (s : state) : state :=
  match c with
  | call_SetGlobalLogLevel l => snd (SetGlobalLogLevel l s)
  | call_RepoLogger repo => snd (RepoLogger repo s)
  | call_MustRepoLogger repo => snd (MustRepoLogger repo s)
  | call_SetRepoLogLevel r l => snd (SetRepoLogLevel r l s)
  | call_ParseLogLevelConfig r conf => snd (ParseLogLevelConfig_call r conf s)
  | call_SetLogLevel r m => snd (SetLogLevel r m s)
  | call_SetFormatter f => snd (SetFormatter f s)
  | call_NewPackageLogger repo pkg => snd (NewPackageLogger repo pkg s)
  end.

(** The state after a history of calls, oldest first. *)
Definition run (cs : list call) (s : state) : state :=
  foldl (fun s c => exec c s) s cs.

(** Some package was registered under [repo] in the history [cs]. *)
Definition registered_in (cs : list call) (repo : string) : Prop :=
  exists pkg, call_NewPackageLogger repo pkg ∈ cs.

(** ** More about the registry *)

(** The outcome of a call, its value forgotten. *)
Definition forget {A : Type} (o : outcome A) : outcome unit :=
  match o with
  | Return _ => Return tt
  | Panic v => Panic v
  | Blocked => Blocked
  end.

Definition call_outcome (c : call) (s : state) : outcome unit :=
  match c with
  | call_SetGlobalLogLevel l => forget (SetGlobalLogLevel l s).1
  | call_RepoLogger repo => forget (RepoLogger repo s).1
  | call_MustRepoLogger repo => forget (MustRepoLogger repo s).1
  | call_SetRepoLogLevel r l => forget (SetRepoLogLevel r l s).1
  | call_ParseLogLevelConfig r conf => forget (ParseLogLevelConfig_call r conf s).1
  | call_SetLogLevel r m => forget (SetLogLevel r m s).1
  | call_SetFormatter f => forget (SetFormatter f s).1
  | call_NewPackageLogger repo pkg => forget (NewPackageLogger repo pkg s).1
  end.

(** The receiver of a level-setting method is a value a variable of type
    [repoLogger] can hold: [nil] or a map that was made. *)
Definition receiver_ok (s : state) (c : call) : Prop :=
  match c with
  | call_SetRepoLogLevel r _ | call_SetLogLevel r _ =>
      forall a, r = Some a -> (a < length (maps s))%nat
  | _ => True
  end.

(** No two repository names share a map and no two registered packages
    share an object. *)
Record separated (s : state) : Prop := mkSeparated {
  sep_repos : forall r1 r2 h,
    repo_of s r1 = Some h -> repo_of s r2 = Some h -> r1 = r2;
  sep_packages : forall r1 k1 r2 k2 p,
    package_of s r1 k1 = Some p -> package_of s r2 k2 = Some p ->
    r1 = r2 /\ k1 = k2
}.

(** The [pkg] field of a registered object is the name it is registered
    under. *)
Definition named (s : state) : Prop :=
  forall repo k b v,
    package_of s repo k = Some (Some b) -> objs s !! b = Some v -> pkg v = k.

(** The levels a call carries. *)
Definition levels_of_call (c : call) : list LogLevel :=
  match c with
  | call_SetGlobalLogLevel l => [l]
  | call_SetRepoLogLevel _ l => [l]
  | call_SetLogLevel _ m => (map_to_list m).*2
  | _ => []
  end.

(** Every allocated object has a level in [P]. *)
Definition levels_in (P : LogLevel -> Prop) (s : state) : Prop :=
  Forall (fun v => P (level v)) (objs s).

(** A computation that keeps the levels of all objects in [P]. *)
Definition keeps_levels (P : LogLevel -> Prop) {A : Type} (m : M A) : Prop :=
  forall s, levels_in P s -> levels_in P (m s).2.

(** The argument of the last [SetFormatter] of a history, [nil] when there
    is none. *)
Definition last_formatter (cs : list call) : option Formatter :=
  foldl (fun f c => match c with call_SetFormatter g => g | _ => f end) None cs.

End registry.

Arguments loggerStruct : clear implicits.
Arguments state : clear implicits.
Arguments call : clear implicits.
Arguments M : clear implicits.

(** ** Concrete inputs *)

(** The registry after [NewPackageLogger("R", "a")] and
    [NewPackageLogger("R", "b")]. *)
Definition state_R_ab : state unit :=
  snd (NewPackageLogger "R" "b" (snd (NewPackageLogger "R" "a" init))).

(** A map with the name * and a name no package of R has. *)
Definition star_and_unknown : gmap string Z :=
  <["*" := ERROR]> {["unknownpkg" := TRACE]}.

(** A history that registers under R only. *)
Definition history_R : list (call unit) :=
  [call_NewPackageLogger "R" "a"; call_SetGlobalLogLevel DEBUG;
   call_NewPackageLogger "R" "b"; call_MustRepoLogger "unknown"].


(** A history that registers under two repositories. *)
Definition history_RQ : list (call unit) :=
  [call_NewPackageLogger "R" "a"; call_NewPackageLogger "Q" "b";
   call_SetFormatter (Some tt)].

(** Another admissible order: the listed one, backwards. *)
Definition reversed_order : RangeOrder :=
  {| range := fun V m => reverse (map_to_list m);
     range_perm := fun V m => reverse_Permutation (map_to_list m) |}.

(** * Properties *)

(** ** Levels and their spellings *)

Lemma case_of_spec (s : string) (alts : list string) :
  case_of s alts = true <-> s ∈ alts.
Proof.
  unfold case_of. rewrite existsb_exists. split.
  - intros (x & Hx & Heq). apply String.eqb_eq in Heq. subst x.
    by apply list_elem_of_In.
  - intros Hin. exists s. split; [by apply list_elem_of_In|].
    apply String.eqb_refl.
Qed.

Lemma accepted_forms_unfold :
  accepted_forms =
  ["CRITICAL"; "C"; "ERROR"; "E"; "0"; "WARNING"; "W"; "1"; "NOTICE"; "N"; "2";
   "INFO"; "I"; "3"; "DEBUG"; "D"; "4"; "TRACE"; "T"; "5"].
Proof. reflexivity. Qed.

Lemma elem_of_Levels (l : Z) :
  l ∈ Levels <->
  l = CRITICAL \/ l = ERROR \/ l = WARNING \/ l = NOTICE \/ l = INFO \/
  l = DEBUG \/ l = TRACE.
Proof.
  unfold Levels. rewrite !elem_of_cons, elem_of_nil. tauto.
Qed.

Lemma append_empty_r (s : string) : s +:+ EmptyString = s.
Proof.
  induction s as [|c s IH]; [done|].
  change (String c (s +:+ EmptyString) = String c s). by rewrite IH.
Qed.

Lemma mentions_suffix (pre s : string) : mentions (pre +:+ s) s.
Proof. exists pre, EmptyString. by rewrite append_empty_r. Qed.

(** A string outside the accepted spellings falls through every [case]. *)
Lemma ParseLevel_reject (s : string) :
  s ∉ accepted_forms ->
  ParseLevel s = (CRITICAL, errors_New ("couldn't parse log level " +:+ s)).
Proof.
  rewrite accepted_forms_unfold. intros Hs. unfold ParseLevel.
  repeat match goal with
  | |- context [case_of s ?alts] =>
      destruct (case_of s alts) eqn:E;
      [apply case_of_spec in E; exfalso; apply Hs;
       rewrite !elem_of_cons in E; rewrite !elem_of_cons; tauto
      | clear E]
  end.
  reflexivity.
Qed.

Lemma ParseLevel_accept (s : string) :
  s ∈ accepted_forms -> (ParseLevel s).2 = None.
Proof.
  rewrite accepted_forms_unfold, !elem_of_cons, elem_of_nil.
  intros H. repeat (destruct H as [->|H]; [reflexivity|]). done.
Qed.

Lemma ParseLevel_CRITICAL_inv (s : string) :
  ParseLevel s = (CRITICAL, None) -> s = "CRITICAL" \/ s = "C".
Proof.
  unfold ParseLevel.
  destruct (case_of s ["CRITICAL"; "C"]) eqn:E.
  { intros _. apply case_of_spec in E.
    rewrite !elem_of_cons, elem_of_nil in E. tauto. }
  repeat match goal with
  | |- context [case_of s ?alts] => destruct (case_of s alts); [discriminate|]
  end.
  discriminate.
Qed.

(** C9: [Char] gives each of the seven levels its own one-character string
    (C, E, W, N, I, D, T in the order of the constants) and panics on
    every other integer. *)
Theorem Char_distinct_or_panic :
  (Char CRITICAL = Return "C" /\ Char ERROR = Return "E" /\
   Char WARNING = Return "W" /\ Char NOTICE = Return "N" /\
   Char INFO = Return "I" /\ Char DEBUG = Return "D" /\
   Char TRACE = Return "T") /\
  (forall l1 l2 : Z, l1 ∈ Levels -> l2 ∈ Levels -> Char l1 = Char l2 -> l1 = l2) /\
  (forall l : Z, l ∈ Levels -> exists c : ascii, Char l = Return (String c EmptyString)) /\
  (forall l : Z, l ∉ Levels -> Char l = Panic "Unhandled loglevel").
Proof.
  split; [by repeat split|]. split; [|split].
  - intros l1 l2 H1 H2.
    apply elem_of_Levels in H1. apply elem_of_Levels in H2.
    destruct H1 as [->|[->|[->|[->|[->|[->| ->]]]]]];
    destruct H2 as [->|[->|[->|[->|[->|[->| ->]]]]]];
    first [reflexivity | (cbv; discriminate)].
  - intros l Hl. apply elem_of_Levels in Hl.
    destruct Hl as [->|[->|[->|[->|[->|[->| ->]]]]]]; eexists; reflexivity.
  - intros l Hl. rewrite elem_of_Levels in Hl. unfold Char.
    repeat match goal with
    | |- context [l =? ?c] =>
        destruct (Z.eqb_spec l c); [exfalso; apply Hl; tauto|]
    end.
    reflexivity.
Qed.

(** C3: [ParseLevel] inverts the spellings of a level: for each of the
    seven levels its name and its [Char] parse back to it without error,
    and so does the digit of ERROR through TRACE; nothing but its name and
    its character parses to CRITICAL, so CRITICAL has no digit. *)
Theorem ParseLevel_left_inverse :
  (forall l : Z, l ∈ Levels ->
     (exists n, level_name l = Some n /\ ParseLevel n = (l, None)) /\
     (exists c, Char l = Return c /\ ParseLevel c = (l, None)) /\
     (ERROR <= l <= TRACE ->
        level_digit l = Some (digit_string l) /\
        ParseLevel (digit_string l) = (l, None))) /\
  (digit_string ERROR = "0" /\ digit_string WARNING = "1" /\
   digit_string NOTICE = "2" /\ digit_string INFO = "3" /\
   digit_string DEBUG = "4" /\ digit_string TRACE = "5") /\
  level_digit CRITICAL = None /\
  (forall s : string, ParseLevel s = (CRITICAL, None) -> s = "CRITICAL" \/ s = "C").
Proof.
  split; [|split; [by repeat split|split; [reflexivity|apply ParseLevel_CRITICAL_inv]]].
  intros l Hl. apply elem_of_Levels in Hl.
  destruct Hl as [->|[->|[->|[->|[->|[->| ->]]]]]];
    (split; [eexists; split; reflexivity|]);
    (split; [eexists; split; reflexivity|]);
    first [by intros _ | (intros [Hlo _]; by compute in Hlo)].
Qed.

(** C8: a string that is not a name, a character or a digit of a level
    makes [ParseLevel] return (it does not panic) an error whose message
    ends with that string; so does the string bogus. *)
Theorem ParseLevel_unrecognized :
  (forall s : string, s ∉ accepted_forms ->
     ParseLevel s = (CRITICAL, Some ("couldn't parse log level " +:+ s)) /\
     mentions ("couldn't parse log level " +:+ s) s) /\
  (forall s : string, s ∈ accepted_forms -> (ParseLevel s).2 = None) /\
  (exists msg : string,
     ParseLevel "bogus" = (CRITICAL, Some msg) /\ mentions msg "bogus").
Proof.
  split; [|split].
  - intros s Hs. split; [by apply ParseLevel_reject|apply mentions_suffix].
  - apply ParseLevel_accept.
  - eexists. split; [reflexivity|].
    apply (mentions_suffix "couldn't parse log level " "bogus").
Qed.

(** ** Splitting and the configuration parser *)

Lemma append_cons (c : ascii) (s t : string) :
  String c s +:+ t = String c (s +:+ t).
Proof. reflexivity. Qed.

Lemma Split_nonempty (s : string) (sep : ascii) : Split s sep <> [].
Proof.
  induction s as [|c s IH]; simpl; [done|].
  destruct (Ascii.eqb c sep); [done|]. by destruct (Split s sep).
Qed.

(** Cutting at one separator: the pieces before it, then the pieces after. *)
Lemma Split_app_sep (a b : string) (sep : ascii) :
  Split (a +:+ String sep b) sep = Split a sep ++ Split b sep.
Proof.
  induction a as [|c a IH].
  - simpl. change (EmptyString +:+ String sep b) with (String sep b).
    simpl. by rewrite Ascii.eqb_refl.
  - rewrite append_cons. simpl. rewrite IH.
    destruct (Ascii.eqb c sep); [done|].
    pose proof (Split_nonempty a sep). by destruct (Split a sep).
Qed.

(** A leading, a trailing or a doubled comma leaves an empty token. *)
Lemma Split_empty_token (conf : string) :
  (exists b, conf = "," +:+ b) \/ (exists a, conf = a +:+ ",") \/
  (exists a b, conf = a +:+ ",," +:+ b) ->
  EmptyString ∈ Split conf ","%char.
Proof.
  intros [[b ->]|[[a ->]|(a & b & ->)]].
  - change ("," +:+ b) with (String ","%char b). simpl. apply list_elem_of_here.
  - change "," with (String ","%char EmptyString).
    rewrite Split_app_sep. apply elem_of_app. right. simpl. apply list_elem_of_here.
  - change (",," +:+ b) with (String ","%char (String ","%char b)).
    rewrite Split_app_sep. apply elem_of_app. right. simpl. apply list_elem_of_here.
Qed.

Lemma add_token_ok (out : gmap string Z) (t k v : string) (l : Z) :
  Split t "="%char = [k; v] -> ParseLevel v = (l, None) ->
  add_token out t = <[k := l]> out.
Proof. intros Hs Hp. unfold add_token. rewrite Hs. simpl. by rewrite Hp. Qed.

(** The loop passes over well-formed tokens, adding each to the map. *)
Lemma loop_app (pre rest : list string) (out : gmap string Z) :
  Forall token_ok pre ->
  ParseLogLevelConfig_loop (pre ++ rest) out =
  ParseLogLevelConfig_loop rest (foldl add_token out pre).
Proof.
  intros Hpre. revert out.
  induction Hpre as [|t pre (k & v & l & Hs & Hp) _ IH]; intros out; [done|].
  simpl. rewrite <- IH. unfold add_token. rewrite Hs. simpl. by rewrite Hp.
Qed.

Lemma loop_malformed (t : string) (rest : list string) (out : gmap string Z) :
  length (Split t "="%char) <> 2%nat ->
  ParseLogLevelConfig_loop (t :: rest) out =
  (None, Some ("oddly structured `pkg=level` option: " +:+ t)).
Proof.
  intros Hlen. simpl.
  destruct (Nat.eqb_spec (length (Split t "="%char)) 2); [done|reflexivity].
Qed.

Lemma loop_bad_level (t k v e : string) (l : Z) (rest : list string)
    (out : gmap string Z) :
  Split t "="%char = [k; v] -> ParseLevel v = (l, Some e) ->
  ParseLogLevelConfig_loop (t :: rest) out = (None, Some e).
Proof. intros Hs Hp. simpl. rewrite Hs. simpl. by rewrite Hp. Qed.

(** An error comes with the [nil] map, success with a map. *)
Lemma loop_result (l : list string) (out : gmap string Z) :
  (exists e, ParseLogLevelConfig_loop l out = (None, Some e)) \/
  (exists m, ParseLogLevelConfig_loop l out = (Some m, None)).
Proof.
  revert out. induction l as [|t l IH]; intros out; simpl; [by right; eexists|].
  destruct (negb _); [by left; eexists|].
  destruct (ParseLevel _) as [lv [e|]]; [by left; eexists|]. apply IH.
Qed.

(** A malformed token anywhere makes the loop fail. *)
Lemma loop_fails (l : list string) (t : string) (out : gmap string Z) :
  t ∈ l -> length (Split t "="%char) <> 2%nat ->
  exists e, ParseLogLevelConfig_loop l out = (None, Some e).
Proof.
  intros Hin Hlen. revert out.
  induction Hin as [t l|t u l Hin IH]; intros out.
  - rewrite loop_malformed by done. by eexists.
  - simpl. destruct (negb _); [by eexists|].
    destruct (ParseLevel _) as [lv [e|]]; [by eexists|]. by apply IH.
Qed.

(** C7: [ParseLogLevelConfig] works through the comma-separated tokens in
    input order. A token that does not split into exactly two parts at =
    makes the call fail, and when the tokens before it are well formed the
    error is the structural one naming that token; a level that does not
    parse makes the call fail at once with the error of [ParseLevel]; an
    error comes with no map; when every token is well formed the result is
    the map of the tokens; as a call it leaves the registry alone. *)
Theorem ParseLogLevelConfig_first_error (r : option nat) :
  (forall conf t, t ∈ Split conf ","%char ->
     length (Split t "="%char) <> 2%nat ->
     exists e, ParseLogLevelConfig r conf = (None, Some e)) /\
  (forall conf pre t post, Split conf ","%char = pre ++ t :: post ->
     Forall token_ok pre -> length (Split t "="%char) <> 2%nat ->
     ParseLogLevelConfig r conf =
     (None, Some ("oddly structured `pkg=level` option: " +:+ t)) /\
     mentions ("oddly structured `pkg=level` option: " +:+ t) t) /\
  (forall conf pre t post k v l e, Split conf ","%char = pre ++ t :: post ->
     Forall token_ok pre -> Split t "="%char = [k; v] ->
     ParseLevel v = (l, Some e) ->
     ParseLogLevelConfig r conf = (None, Some e)) /\
  (forall conf m e, ParseLogLevelConfig r conf = (m, Some e) -> m = None) /\
  (forall conf, Forall token_ok (Split conf ","%char) ->
     ParseLogLevelConfig r conf =
     (Some (foldl add_token ∅ (Split conf ","%char)), None)) /\
  (forall out t k v l, Split t "="%char = [k; v] -> ParseLevel v = (l, None) ->
     add_token out t = <[k := l]> out) /\
  (forall (F : Type) conf (s : state F),
     ParseLogLevelConfig_call r conf s = (Return (ParseLogLevelConfig r conf), s)) /\
  ParseLogLevelConfig r "a=INFO=extra" =
    (None, Some "oddly structured `pkg=level` option: a=INFO=extra") /\
  ParseLogLevelConfig r "*=ERROR,b=DEBUG" =
    (Some (<["b" := DEBUG]> (<["*" := ERROR]> ∅)), None).
Proof.
  unfold ParseLogLevelConfig. split_and!.
  - intros conf t Hin Hlen. by eapply loop_fails.
  - intros conf pre t post Hs Hpre Hlen. split; [|apply mentions_suffix].
    rewrite Hs. rewrite loop_app by done. by apply loop_malformed.
  - intros conf pre t post k v l e Hs Hpre Hk Hp.
    rewrite Hs. rewrite loop_app by done. by eapply loop_bad_level.
  - intros conf m e Hm.
    destruct (loop_result (Split conf ","%char) ∅) as [[e' He]|[m' He]];
      rewrite He in Hm; congruence.
  - intros conf Hall.
    rewrite <- (app_nil_r (Split conf ","%char)) at 1.
    by rewrite loop_app.
  - intros. by eapply add_token_ok.
  - done.
  - reflexivity.
  - reflexivity.
Qed.

(** C10: the empty configuration is rejected with the structural error,
    not answered with an empty map; a leading, trailing or doubled comma
    leaves an empty token, and an empty token makes the call fail, with
    that same error when the tokens before it are well formed. *)
Theorem ParseLogLevelConfig_empty_token (r : option nat) :
  ParseLogLevelConfig r "" =
    (None, Some "oddly structured `pkg=level` option: ") /\
  Split "" ","%char = [""] /\ length (Split "" "="%char) = 1%nat /\
  (forall conf,
     (exists b, conf = "," +:+ b) \/ (exists a, conf = a +:+ ",") \/
     (exists a b, conf = a +:+ ",," +:+ b) ->
     "" ∈ Split conf ","%char) /\
  (forall conf, "" ∈ Split conf ","%char ->
     exists e, ParseLogLevelConfig r conf = (None, Some e)) /\
  (forall conf pre post, Split conf ","%char = pre ++ "" :: post ->
     Forall token_ok pre ->
     ParseLogLevelConfig r conf =
     (None, Some "oddly structured `pkg=level` option: ")) /\
  (forall b, ParseLogLevelConfig r ("," +:+ b) =
     (None, Some "oddly structured `pkg=level` option: ")).
Proof.
  unfold ParseLogLevelConfig. split_and!; [reflexivity..| | | |].
  - apply Split_empty_token.
  - intros conf Hin. by eapply loop_fails.
  - intros conf pre post Hs Hpre.
    rewrite Hs. rewrite loop_app by done. by rewrite loop_malformed.
  - intros b. change ("," +:+ b) with (String ","%char b). simpl Split.
    by rewrite loop_malformed.
Qed.

(** ** The heap of objects under assignments *)

Lemma lookup_assign_level (l : Z) (os : list packageLogger) (b x : nat) :
  assign_level l os (Some b) !! x =
  if decide (x = b) then with_level l <$> os !! x else os !! x.
Proof.
  unfold assign_level. destruct (os !! b) as [v|] eqn:Hb.
  - destruct (decide (x = b)) as [->|Hne].
    + rewrite list_lookup_insert_eq by (by eapply lookup_lt_Some).
      by rewrite Hb.
    + by rewrite list_lookup_insert_ne.
  - destruct (decide (x = b)) as [->|Hne]; [by rewrite Hb|done].
Qed.

Lemma length_assign_level (l : Z) (os : list packageLogger) (p : option nat) :
  length (assign_level l os p) = length os.
Proof.
  destruct p as [b|]; [|done]. unfold assign_level.
  destruct (os !! b); [apply length_insert|done].
Qed.

Lemma pkg_assign_level (l : Z) (os : list packageLogger) (p : option nat) (x : nat) :
  pkg <$> assign_level l os p !! x = pkg <$> os !! x.
Proof.
  destruct p as [b|]; [|done]. rewrite lookup_assign_level.
  destruct (decide (x = b)); [|done]. by destruct (os !! x).
Qed.

(** After a blanket assignment of [l] an object has level [l] if one of the
    pointers led to it and is untouched otherwise. *)
Lemma lookup_foldl_assign_level (l : Z) (ps : list (option nat))
    (os : list packageLogger) (x : nat) :
  foldl (assign_level l) os ps !! x =
  if decide (Some x ∈ ps) then with_level l <$> os !! x else os !! x.
Proof.
  revert os. induction ps as [|p ps IH]; intros os; cbn [foldl].
  - case_decide as Hin; [by apply elem_of_nil in Hin|done].
  - rewrite IH. destruct p as [b|].
    + rewrite lookup_assign_level.
      destruct (decide (Some x ∈ ps)) as [Hin|Hin];
        destruct (decide (x = b)) as [->|Hne];
        destruct (decide (_ ∈ _ :: ps)) as [Hin'|Hin'];
        try done; try (by destruct (os !! b)).
      * exfalso. apply Hin'. by apply list_elem_of_further.
      * exfalso. apply Hin'. by apply list_elem_of_further.
      * exfalso. apply Hin'. apply list_elem_of_here.
      * exfalso. apply elem_of_cons in Hin' as [?|?]; [congruence|done].
    + cbn [assign_level].
      destruct (decide (Some x ∈ ps)) as [Hin|Hin];
        destruct (decide (_ ∈ _ :: ps)) as [Hin'|Hin']; try done.
      * exfalso. apply Hin'. by apply list_elem_of_further.
      * exfalso. apply elem_of_cons in Hin' as [?|?]; [congruence|done].
Qed.

Lemma length_foldl_assign_level (l : Z) (ps : list (option nat))
    (os : list packageLogger) :
  length (foldl (assign_level l) os ps) = length os.
Proof.
  revert os. induction ps as [|p ps IH]; intros os; simpl; [done|].
  by rewrite IH, length_assign_level.
Qed.

Lemma pkg_foldl_assign_level (l : Z) (ps : list (option nat))
    (os : list packageLogger) (x : nat) :
  pkg <$> foldl (assign_level l) os ps !! x = pkg <$> os !! x.
Proof.
  revert os. induction ps as [|p ps IH]; intros os; simpl; [done|].
  by rewrite IH, pkg_assign_level.
Qed.

Lemma length_foldl_assign_entry (e : gmap string (option nat))
    (kvs : list (string * Z)) (os : list packageLogger) :
  length (foldl (assign_entry e) os kvs) = length os.
Proof.
  revert os. induction kvs as [|kv kvs IH]; intros os; simpl; [done|].
  rewrite IH. unfold assign_entry.
  destruct (e !! kv.1); [apply length_assign_level|done].
Qed.

Lemma pkg_foldl_assign_entry (e : gmap string (option nat))
    (kvs : list (string * Z)) (os : list packageLogger) (x : nat) :
  pkg <$> foldl (assign_entry e) os kvs !! x = pkg <$> os !! x.
Proof.
  revert os. induction kvs as [|kv kvs IH]; intros os; simpl; [done|].
  rewrite IH. unfold assign_entry.
  destruct (e !! kv.1); [apply pkg_assign_level|done].
Qed.

(** Rounds for names that do not lead to [x] leave [x] alone. *)
Lemma lookup_foldl_assign_entry_other (e : gmap string (option nat))
    (kvs : list (string * Z)) (os : list packageLogger) (x : nat) :
  (forall k v, (k, v) ∈ kvs -> e !! k <> Some (Some x)) ->
  foldl (assign_entry e) os kvs !! x = os !! x.
Proof.
  revert os. induction kvs as [|[k v] kvs IH]; intros os Hno; simpl; [done|].
  rewrite IH by (intros k' v' Hin; apply (Hno k' v'); by apply list_elem_of_further).
  unfold assign_entry. simpl.
  assert (e !! k <> Some (Some x)) as Hk by (apply (Hno k v); apply list_elem_of_here).
  destruct (e !! k) as [[b|]|]; [|done..].
  rewrite lookup_assign_level. rewrite decide_False; [done|]. congruence.
Qed.

(** The round for the one name that leads to [x] decides the level of [x]. *)
Lemma lookup_foldl_assign_entry (e : gmap string (option nat))
    (kvs : list (string * Z)) (os : list packageLogger) (x : nat)
    (k : string) (v : Z) :
  NoDup kvs.*1 -> (k, v) ∈ kvs -> e !! k = Some (Some x) ->
  (forall k', e !! k' = Some (Some x) -> k' = k) ->
  foldl (assign_entry e) os kvs !! x = with_level v <$> os !! x.
Proof.
  intros Hnd Hin Hk Hinj. revert os Hnd Hin.
  induction kvs as [|[k0 v0] kvs IH]; intros os Hnd Hin; simpl.
  { by apply elem_of_nil in Hin. }
  rewrite fmap_cons in Hnd. apply NoDup_cons in Hnd as [Hk0 Hnd].
  apply elem_of_cons in Hin as [Heq|Hin].
  - injection Heq as <- <-.
    rewrite lookup_foldl_assign_entry_other.
    + unfold assign_entry. simpl. rewrite Hk, lookup_assign_level.
      by rewrite decide_True.
    + intros k' v' Hin' Hk'. apply Hinj in Hk'. subst k'.
      apply Hk0. apply list_elem_of_fmap. by exists (k, v').
  - rewrite IH by done. f_equal.
    unfold assign_entry. simpl.
    destruct (e !! k0) as [[b|]|] eqn:Hb; [|done..].
    rewrite lookup_assign_level. rewrite decide_False; [done|].
    intros ->. apply Hinj in Hb. subst k0.
    apply Hk0. apply list_elem_of_fmap. by exists (k, v).
Qed.

(** ** Running the calls *)

Section registry_proofs.

Context {Formatter : Type}.
Context `{order : RangeOrder}.

Implicit Types s : state Formatter.

Ltac unfold_M :=
  unfold mbind, M_bind, mret, M_ret, bind, ret, gets, modify, panic in *.

Lemma set_objs_id s : set_objs (objs s) s = s.
Proof. by destruct s. Qed.

Lemma unlock_after s (os : list packageLogger) :
  mu (logger s) = false ->
  set_mu false (set_objs os (set_mu true s)) = set_objs os s.
Proof. destruct s as [[m rm f] ms os0]. simpl. by intros ->. Qed.

Lemma set_mu_false_true s :
  mu (logger s) = false -> set_mu false (set_mu true s) = s.
Proof. destruct s as [[m rm f] ms os0]. simpl. by intros ->. Qed.

(** A call that takes the mutex, defers its release and runs [body]. *)
Lemma locked_eval {A : Type} (body : M Formatter A) s (o : outcome A) s' :
  mu (logger s) = false ->
  body (set_mu true s) = (o, s') -> o <> Blocked -> mu (logger s') = true ->
  (Lock ;; defer Unlock body) s = (o, set_mu false s').
Proof.
  intros Hmu Hbody Ho Hmu'. unfold_M. unfold Lock, defer, Unlock.
  rewrite Hmu, Hbody, Hmu'. by destruct o.
Qed.

Lemma locked_eval_same {A : Type} (body : M Formatter A) s (o : outcome A) :
  mu (logger s) = false ->
  body (set_mu true s) = (o, set_mu true s) -> o <> Blocked ->
  (Lock ;; defer Unlock body) s = (o, s).
Proof.
  intros Hmu Hbody Ho.
  rewrite (locked_eval body s o (set_mu true s)) by done.
  by rewrite set_mu_false_true.
Qed.

Lemma mbind_eval {A B : Type} (m : M Formatter A) (k : A -> M Formatter B)
    s (a : A) s' :
  m s = (Return a, s') -> (m ≫= k) s = k a s'.
Proof. intros Hm. unfold_M. by rewrite Hm. Qed.

Lemma range_elem_of {V : Type} (m : gmap string V) (k : string) (v : V) :
  (k, v) ∈ range m <-> m !! k = Some v.
Proof. rewrite (range_perm V m). apply elem_of_map_to_list. Qed.

Lemma range_NoDup {V : Type} (m : gmap string V) : NoDup (range m).*1.
Proof. rewrite (range_perm V m). apply NoDup_fst_map_to_list. Qed.

(** The loop of [setRepoLogLevelInternal] over entries that all point to
    objects. *)
Lemma for_each_store_level (l : Z) (ps : list (string * option nat)) s :
  (forall k p, (k, p) ∈ ps -> exists b, p = Some b /\ (b < length (objs s))%nat) ->
  for_each ps (fun '(_, v) => store_level v l) s =
  (Return tt, set_objs (foldl (assign_level l) (objs s) ps.*2) s).
Proof.
  revert s. induction ps as [|[k p] ps IH]; intros s Hval.
  - simpl. unfold_M. by rewrite set_objs_id.
  - destruct (Hval k p) as (b & -> & Hb); [apply list_elem_of_here|].
    apply lookup_lt_is_Some in Hb as [v Hv].
    cbn [for_each]. unfold bind at 1. unfold store_level at 1. rewrite Hv.
    rewrite IH.
    + rewrite fmap_cons. cbn [foldl snd assign_level objs set_objs].
      by rewrite Hv.
    + intros k' p' Hin. cbn [objs set_objs]. rewrite length_insert.
      apply (Hval k' p'). by apply list_elem_of_further.
Qed.

Lemma entries_eval s (r : option nat) :
  sound_handle s r -> entries r s = (Return (packages s r), s).
Proof.
  intros [Hr _]. unfold entries, packages. destruct r as [a|]; [|done].
  destruct (Hr a eq_refl) as [e He]. simpl. by rewrite He.
Qed.

Lemma setRepoLogLevelInternal_eval s (r : option nat) (l : Z) :
  sound_handle s r ->
  setRepoLogLevelInternal r l s =
  (Return tt, set_objs (foldl (assign_level l) (objs s) (range (packages s r)).*2) s).
Proof.
  intros Hr. unfold setRepoLogLevelInternal. unfold_M.
  rewrite entries_eval by done.
  apply for_each_store_level. intros k p Hin.
  apply range_elem_of in Hin. by apply Hr in Hin.
Qed.

Lemma sound_handle_set_objs s (r : option nat) (os : list packageLogger) :
  length os = length (objs s) -> sound_handle s r -> sound_handle (set_objs os s) r.
Proof. intros Hlen [H1 H2]. split; [done|]. simpl. by rewrite Hlen. Qed.

(** The second loop of [SetLogLevel]. *)
Lemma for_each_assign_entry s (r : option nat) (kvs : list (string * Z)) :
  sound_handle s r ->
  for_each kvs (fun '(k, v) =>
      e ← entries r;
      let '(l, ok) := index None e k in
      if negb ok then ret tt else store_level l v) s =
  (Return tt, set_objs (foldl (assign_entry (packages s r)) (objs s) kvs) s).
Proof.
  revert s. induction kvs as [|[k v] kvs IH]; intros s Hr.
  - simpl. unfold_M. by rewrite set_objs_id.
  - cbn [for_each foldl]. unfold bind at 1. unfold_M.
    rewrite entries_eval by done. unfold index, assign_entry. cbn [fst snd].
    destruct (packages s r !! k) as [p|] eqn:Hk; cbn [negb].
    + destruct Hr as [Hr1 Hr2]. destruct (Hr2 k p Hk) as (b & -> & Hb).
      apply lookup_lt_is_Some in Hb as [v0 Hv0].
      unfold store_level at 1. rewrite Hv0.
      rewrite IH.
      * cbn [assign_level objs set_objs snd]. by rewrite Hv0.
      * apply sound_handle_set_objs; [apply length_insert|done].
    + by rewrite IH.
Qed.

Lemma for_each_setRepoLogLevelInternal (l : Z) (rs : list (string * option nat)) s :
  (forall k r, (k, r) ∈ rs -> sound_handle s r) ->
  for_each rs (fun '(_, r) => setRepoLogLevelInternal r l) s =
  (Return tt,
   set_objs (foldl (assign_level l) (objs s)
               (rs ≫= (fun kr => (range (packages s kr.2)).*2))) s).
Proof.
  revert s. induction rs as [|[k r] rs IH]; intros s Hval.
  - cbn. unfold_M. by rewrite set_objs_id.
  - cbn [for_each]. unfold bind at 1.
    rewrite setRepoLogLevelInternal_eval
      by (apply (Hval k r); apply list_elem_of_here).
    rewrite IH.
    + rewrite bind_cons, foldl_app. reflexivity.
    + intros k' r' Hin. apply sound_handle_set_objs.
      * apply length_foldl_assign_level.
      * apply (Hval k' r'). by apply list_elem_of_further.
Qed.

(** ** The invariant *)

Lemma repo_of_Some s (repo : string) (r : option nat) :
  repo_of s repo = Some r <->
  exists rm, repoMap (logger s) = Some rm /\ rm !! repo = Some r.
Proof.
  unfold repo_of. destruct (repoMap (logger s)) as [rm|]; simpl.
  - split; [by exists rm|]. by intros (rm' & [= <-] & ?).
  - split; [done|]. by intros (rm' & ? & ?).
Qed.

Lemma wf_handle s (repo : string) (r : option nat) :
  wf s -> repo_of s repo = Some r ->
  exists a e, r = Some a /\ maps s !! a = Some e /\ packages s r = e.
Proof.
  intros Hwf Hr. apply repo_of_Some in Hr as (rm & Hrm & Hr).
  destruct (wf_repos s Hwf rm repo r Hrm Hr) as (a & -> & Ha).
  apply lookup_lt_is_Some in Ha as [e He].
  exists a, e. split; [done|]. split; [done|].
  unfold packages. simpl. by rewrite He.
Qed.

Lemma wf_sound_handle s (repo : string) (r : option nat) :
  wf s -> repo_of s repo = Some r -> sound_handle s r.
Proof.
  intros Hwf Hr. destruct (wf_handle s repo r Hwf Hr) as (a & e & -> & He & Hp).
  split.
  - intros a' [= <-]. by exists e.
  - intros k p Hk. rewrite Hp in Hk. by eapply wf_entries.
Qed.

Lemma wf_package s (repo pkg : string) (p : option nat) :
  wf s -> package_of s repo pkg = Some p ->
  exists r b v, repo_of s repo = Some r /\ packages s r !! pkg = Some p /\
    p = Some b /\ objs s !! b = Some v.
Proof.
  intros Hwf Hp. unfold package_of in Hp.
  destruct (repo_of s repo) as [r|] eqn:Hr; [|done]. simpl in Hp.
  destruct (wf_sound_handle s repo r Hwf Hr) as [_ Hs].
  destruct (Hs pkg p Hp) as (b & -> & Hb).
  apply lookup_lt_is_Some in Hb as [v Hv]. by exists r, b, v.
Qed.

Lemma same_shape_refl s : same_shape s s.
Proof. by repeat split. Qed.

Lemma same_shape_set_objs s (os : list packageLogger) :
  length os = length (objs s) ->
  (forall b, pkg <$> os !! b = pkg <$> objs s !! b) ->
  same_shape s (set_objs os s).
Proof. intros Hlen Hpkg. by repeat split. Qed.

Lemma wf_same_shape s s' : wf s -> same_shape s s' -> wf s'.
Proof.
  intros [H1 H2 H3 H4] (Hl & Hm & Hlen & _). split.
  - by rewrite Hl.
  - rewrite Hl, Hm. exact H2.
  - rewrite Hm, Hlen. exact H3.
  - rewrite Hm. exact H4.
Qed.

Lemma same_shape_package_of s s' (repo pkg : string) :
  same_shape s s' -> package_of s' repo pkg = package_of s repo pkg.
Proof.
  intros (Hl & Hm & _). unfold package_of, repo_of, packages. by rewrite Hl, Hm.
Qed.

(** ** [SetGlobalLogLevel] *)

Lemma SetGlobalLogLevel_eval (l : Z) s :
  wf s ->
  SetGlobalLogLevel l s =
  (Return tt, set_objs (foldl (assign_level l) (objs s) (global_targets s)) s).
Proof.
  intros Hwf. unfold SetGlobalLogLevel.
  rewrite <- (unlock_after s) by apply Hwf.
  apply locked_eval; [apply Hwf| |done|done].
  unfold_M. apply (for_each_setRepoLogLevelInternal l _ (set_mu true s)).
  intros k r Hin. apply range_elem_of in Hin.
  apply (wf_sound_handle s k r Hwf). apply repo_of_Some.
  cbn [logger set_mu repoMap] in Hin.
  destruct (repoMap (logger s)) as [rm|]; simpl in Hin; [by exists rm|].
  by rewrite lookup_empty in Hin.
Qed.

(** C4: [SetGlobalLogLevel l] returns, and afterwards every package of
    every registered repository has level [l], whatever its level was. *)
Theorem SetGlobalLogLevel_sets_all (l : Z) s :
  wf s ->
  exists s', SetGlobalLogLevel l s = (Return tt, s') /\
    same_shape s s' /\ wf s' /\
    forall repo pkg p, package_of s repo pkg = Some p ->
      package_of s' repo pkg = Some p /\ level_of s' p = Some l.
Proof.
  intros Hwf. eexists. split; [by apply SetGlobalLogLevel_eval|].
  assert (same_shape s
    (set_objs (foldl (assign_level l) (objs s) (global_targets s)) s)) as Hsh.
  { apply same_shape_set_objs;
      [apply length_foldl_assign_level|apply pkg_foldl_assign_level]. }
  split; [done|]. split; [by eapply wf_same_shape|].
  intros repo pkg p Hp. split; [by rewrite (same_shape_package_of s)|].
  destruct (wf_package s repo pkg p Hwf Hp) as (r & b & v & Hr & Hk & -> & Hv).
  unfold level_of. cbn [mbind option_bind objs set_objs].
  rewrite lookup_foldl_assign_level, Hv. rewrite decide_True; [done|].
  unfold global_targets. apply list_elem_of_bind. exists (repo, r). split.
  - apply list_elem_of_fmap. exists (pkg, Some b). split; [done|].
    by apply range_elem_of.
  - apply range_elem_of. apply repo_of_Some in Hr as (rm & Hrm & Hr).
    by rewrite Hrm.
Qed.

(** ** [SetLogLevel] *)

Lemma SetLogLevel_eval s (r : option nat) (m : gmap string Z) :
  mu (logger s) = false -> sound_handle s r ->
  SetLogLevel r m s =
  (Return tt, set_objs (levels_after (packages s r) m (objs s)) s).
Proof.
  intros Hmu Hr. unfold SetLogLevel.
  rewrite <- (unlock_after s) by done.
  apply locked_eval; [done| |done|done].
  unfold levels_after, index.
  destruct (m !! "*") as [l|]; cbv beta iota.
  - erewrite mbind_eval
      by (by apply (setRepoLogLevelInternal_eval (set_mu true s))).
    rewrite for_each_assign_entry; [reflexivity|].
    apply sound_handle_set_objs; [apply length_foldl_assign_level|done].
  - erewrite mbind_eval by reflexivity. by rewrite for_each_assign_entry.
Qed.

Lemma with_level_id (v : packageLogger) : with_level (level v) v = v.
Proof. by destruct v. Qed.

(** The level of a package of the receiver after [SetLogLevel]. *)
Lemma lookup_levels_after (e : gmap string (option nat)) (m : gmap string Z)
    (os : list packageLogger) (k : string) (b : nat) (v0 : packageLogger) :
  e !! k = Some (Some b) ->
  (forall k', e !! k' = Some (Some b) -> k' = k) ->
  os !! b = Some v0 ->
  levels_after e m os !! b = Some (with_level (requested m k (level v0)) v0).
Proof.
  intros Hk Hinj Hb. unfold levels_after, requested.
  assert (match m !! "*" with
          | Some l => foldl (assign_level l) os (range e).*2
          | None => os
          end !! b = Some (with_level (default (level v0) (m !! "*")) v0)) as H1.
  { destruct (m !! "*") as [l|]; simpl; [|by rewrite with_level_id].
    rewrite lookup_foldl_assign_level, Hb. rewrite decide_True; [done|].
    apply list_elem_of_fmap. exists (k, Some b). split; [done|].
    by apply range_elem_of. }
  destruct (m !! k) as [v|] eqn:Hm.
  - rewrite (lookup_foldl_assign_entry e _ _ b k v); [by rewrite H1| |  |done..].
    + apply range_NoDup.
    + by apply range_elem_of.
  - rewrite lookup_foldl_assign_entry_other; [done|].
    intros k' v' Hin Hk'. apply range_elem_of in Hin.
    apply Hinj in Hk'. congruence.
Qed.

(** [SetLogLevel] leaves the objects of other maps alone. *)
Lemma lookup_levels_after_other (e : gmap string (option nat))
    (m : gmap string Z) (os : list packageLogger) (b : nat) :
  (forall k, e !! k <> Some (Some b)) ->
  levels_after e m os !! b = os !! b.
Proof.
  intros Hno. unfold levels_after.
  rewrite lookup_foldl_assign_entry_other by (intros k v _; apply Hno).
  destruct (m !! "*") as [l|]; [|done].
  rewrite lookup_foldl_assign_level. rewrite decide_False; [done|].
  intros Hin. apply list_elem_of_fmap in Hin as ([k p] & Heq & Hin).
  simpl in Heq. subst p. apply range_elem_of in Hin. by apply Hno in Hin.
Qed.

Lemma same_shape_levels_after s (e : gmap string (option nat)) (m : gmap string Z) :
  same_shape s (set_objs (levels_after e m (objs s)) s).
Proof.
  apply same_shape_set_objs; unfold levels_after.
  - rewrite length_foldl_assign_entry.
    destruct (m !! "*"); [apply length_foldl_assign_level|done].
  - intros b. rewrite pkg_foldl_assign_entry.
    destruct (m !! "*"); [apply pkg_foldl_assign_level|done].
Qed.

(** The level of every package of the receiver after [SetLogLevel]. *)
Lemma SetLogLevel_levels s (repo : string) (r : option nat) (m : gmap string Z) :
  wf s -> repo_of s repo = Some r ->
  forall k p, packages s r !! k = Some p ->
    exists old, level_of s p = Some old /\
      level_of (set_objs (levels_after (packages s r) m (objs s)) s) p =
      Some (requested m k old).
Proof.
  intros Hwf Hr k p Hk.
  destruct (wf_handle s repo r Hwf Hr) as (a & e & -> & He & Hp).
  rewrite Hp in *.
  destruct (wf_entries s Hwf a e k p He Hk) as (b & -> & Hb).
  apply lookup_lt_is_Some in Hb as [v0 Hv0].
  exists (level v0). unfold level_of. cbn [mbind option_bind objs set_objs].
  rewrite Hv0. split; [done|].
  rewrite (lookup_levels_after e m (objs s) k b v0); [done|done| |done].
  intros k' Hk'. symmetry. by eapply (wf_inj s Hwf a e k k').
Qed.

(** C2: [SetLogLevel] first assigns the level of the name *, when the map
    has it, to every package of the receiver and then runs one round per
    entry of the map; afterwards a package has the level the map gives its
    name, else the level of *, else its old level. With packages a and b
    at INFO and the map parsed from the configuration of the example, a
    ends at ERROR and b at DEBUG. *)
Theorem SetLogLevel_star_first s (repo : string) (r : option nat) :
  wf s -> repo_of s repo = Some r ->
  (forall m, exists s', SetLogLevel r m s = (Return tt, s') /\
     same_shape s s' /\
     objs s' =
       foldl (assign_entry (packages s r))
         (match m !! "*" with
          | Some l => objs (setRepoLogLevelInternal r l s).2
          | None => objs s
          end) (range m) /\
     (forall l, m !! "*" = Some l ->
        forall k p, packages s r !! k = Some p ->
          level_of (setRepoLogLevelInternal r l s).2 p = Some l) /\
     (forall k p, packages s r !! k = Some p ->
        exists old, level_of s p = Some old /\
          level_of s' p = Some (requested m k old))) /\
  (forall pa pb m,
     packages s r !! "a" = Some pa -> packages s r !! "b" = Some pb ->
     level_of s pa = Some INFO -> level_of s pb = Some INFO ->
     ParseLogLevelConfig r "*=ERROR,b=DEBUG" = (Some m, None) ->
     exists s', SetLogLevel r m s = (Return tt, s') /\
       level_of s' pa = Some ERROR /\ level_of s' pb = Some DEBUG).
Proof.
  intros Hwf Hr.
  pose proof (wf_sound_handle s repo r Hwf Hr) as Hs.
  assert (forall m, SetLogLevel r m s =
    (Return tt, set_objs (levels_after (packages s r) m (objs s)) s)) as Hev.
  { intros m. apply SetLogLevel_eval; [apply Hwf|done]. }
  split.
  - intros m. eexists. split; [apply Hev|].
    split; [apply same_shape_levels_after|].
    split_and!.
    + cbn [objs set_objs]. unfold levels_after.
      destruct (m !! "*"); [|done].
      by rewrite setRepoLogLevelInternal_eval.
    + intros l _ k p Hk. rewrite setRepoLogLevelInternal_eval by done.
      destruct (wf_handle s repo r Hwf Hr) as (a & e & -> & He & Hp).
      rewrite Hp in *.
      destruct (wf_entries s Hwf a e k p He Hk) as (b & -> & Hb).
      apply lookup_lt_is_Some in Hb as [v0 Hv0].
      unfold level_of. cbn [mbind option_bind objs set_objs snd].
      rewrite lookup_foldl_assign_level, Hv0. rewrite decide_True; [done|].
      apply list_elem_of_fmap. exists (k, Some b). split; [done|].
      by apply range_elem_of.
    + by apply (SetLogLevel_levels s repo).
  - intros pa pb m Ha Hb Hla Hlb Hm.
    assert (m = <["b" := DEBUG]> (<["*" := ERROR]> ∅)) as -> by (by injection Hm).
    eexists. split; [apply Hev|].
    destruct (SetLogLevel_levels s repo r (<["b" := DEBUG]> (<["*" := ERROR]> ∅))
                Hwf Hr "a" pa Ha) as (olda & Holda & ->).
    destruct (SetLogLevel_levels s repo r (<["b" := DEBUG]> (<["*" := ERROR]> ∅))
                Hwf Hr "b" pb Hb) as (oldb & Holdb & ->).
    by split.
Qed.

(** C5, as the code has it: names of the map that the receiver lacks are
    skipped without error. When every name of the map other than * is
    unknown, the call returns; with no entry for * the state is left as it
    was, and with an entry for * every package of the receiver gets the
    level of *. The map with the one unknown name of the example changes
    nothing. *)
Theorem SetLogLevel_unknown_names s (repo : string) (r : option nat) :
  wf s -> repo_of s repo = Some r ->
  (forall m : gmap string Z,
     (forall k, k <> "*" -> is_Some (m !! k) -> packages s r !! k = None) ->
     exists s', SetLogLevel r m s = (Return tt, s') /\
       (m !! "*" = None -> s' = s) /\
       (forall l, m !! "*" = Some l ->
          same_shape s s' /\
          forall k p, packages s r !! k = Some p -> level_of s' p = Some l)) /\
  (packages s r !! "unknownpkg" = None ->
   SetLogLevel r {["unknownpkg" := TRACE]} s = (Return tt, s)).
Proof.
  intros Hwf Hr.
  pose proof (wf_sound_handle s repo r Hwf Hr) as Hs.
  assert (forall m : gmap string Z,
    (forall k, k <> "*" -> is_Some (m !! k) -> packages s r !! k = None) ->
    m !! "*" = None ->
    set_objs (levels_after (packages s r) m (objs s)) s = s) as Hsame.
  { intros m Hunknown Hstar.
    transitivity (set_objs (objs s) s); [|apply set_objs_id]. f_equal.
    unfold levels_after. rewrite Hstar. apply list_eq. intros b.
    apply lookup_foldl_assign_entry_other. intros k v Hin Hk.
    apply range_elem_of in Hin.
    rewrite Hunknown in Hk; [done| |by exists v]. congruence. }
  split.
  - intros m Hunknown. eexists. split; [by apply SetLogLevel_eval; [apply Hwf|]|].
    split; [by apply Hsame|].
    intros l Hstar. split; [apply same_shape_levels_after|].
    intros k p Hk.
    destruct (SetLogLevel_levels s repo r m Hwf Hr k p Hk) as (old & _ & ->).
    f_equal. unfold requested. rewrite Hstar.
    destruct (decide (k = "*")) as [->|Hne]; [by rewrite Hstar|].
    destruct (m !! k) as [v|] eqn:Hm; [|done].
    rewrite Hunknown in Hk; [done|done|by exists v].
  - intros Hk. rewrite SetLogLevel_eval; [|apply Hwf|done].
    rewrite Hsame; [done| |done].
    intros k _ [v Hv]. apply lookup_singleton_Some in Hv as [<- _]. done.
Qed.

(** ** [NewPackageLogger] *)

Lemma NewPackageLogger_existing s (repo pkg : string) (a : nat)
    (e : gmap string (option nat)) (p : option nat) :
  mu (logger s) = false ->
  repo_of s repo = Some (Some a) -> maps s !! a = Some e -> e !! pkg = Some p ->
  NewPackageLogger repo pkg s = (Return p, s).
Proof.
  intros Hmu Hr He Hp. apply repo_of_Some in Hr as (rm & Hrm & Hr).
  unfold NewPackageLogger.
  rewrite <- (set_mu_false_true s) at 2 by done.
  apply locked_eval; [done| |done|done].
  unfold_M. unfold index, entries.
  repeat (progress (cbn -[lookup insert]; rewrite ?Hrm, ?Hr, ?He, ?Hp)).
  reflexivity.
Qed.

Lemma NewPackageLogger_new_package s (repo pkg : string) (a : nat)
    (e : gmap string (option nat)) :
  mu (logger s) = false ->
  repo_of s repo = Some (Some a) -> maps s !! a = Some e -> e !! pkg = None ->
  NewPackageLogger repo pkg s =
  (Return (Some (length (objs s))), with_package a e pkg s).
Proof.
  intros Hmu Hr He Hp. apply repo_of_Some in Hr as (rm & Hrm & Hr).
  unfold NewPackageLogger.
  replace (with_package a e pkg s)
    with (set_mu false (with_package a e pkg (set_mu true s)))
    by (destruct s as [[m0 rm0 f0] ms os]; simpl in Hmu; by subst m0).
  apply locked_eval; [done| |done|done].
  assert (<[a := <[pkg := Some (length (objs s))]> e]> (maps s) !! a =
          Some (<[pkg := Some (length (objs s))]> e)) as He'.
  { apply list_lookup_insert_eq. by eapply lookup_lt_Some. }
  unfold_M. unfold index, entries, assign.
  repeat (progress (cbn -[lookup insert];
                    rewrite ?Hrm, ?Hr, ?He, ?Hp, ?He', ?lookup_insert_eq)).
  reflexivity.
Qed.

Lemma NewPackageLogger_new_repo s (repo pkg : string) :
  mu (logger s) = false -> repo_of s repo = None ->
  NewPackageLogger repo pkg s =
  (Return (Some (length (objs s))), with_repo repo pkg s).
Proof.
  intros Hmu Hr. unfold NewPackageLogger.
  replace (with_repo repo pkg s)
    with (set_mu false (with_repo repo pkg (set_mu true s)))
    by (destruct s as [[m0 rm0 f0] ms os]; simpl in Hmu; by subst m0).
  apply locked_eval; [done| |done|done].
  assert (forall m : gmap string (option nat),
            (maps s ++ [m]) !! length (maps s) = Some m) as Hnew.
  { intros m. by apply list_lookup_middle. }
  assert (forall m m' : gmap string (option nat),
            <[length (maps s) := m']> (maps s ++ [m]) = maps s ++ [m']) as Hins.
  { intros m m'. rewrite insert_app_r_alt by lia. by rewrite Nat.sub_diag. }
  assert (default ∅ (repoMap (logger s)) !! repo = None) as Hr'.
  { unfold repo_of in Hr. by destruct (repoMap (logger s)). }
  unfold_M. unfold index, entries, assign, assign_repoMap, with_repo.
  destruct (repoMap (logger s)) as [rm|] eqn:Hrm; simpl in Hr';
    repeat (progress (cbn -[lookup insert];
                      rewrite ?Hrm, ?Hr', ?lookup_insert_eq, ?Hnew, ?Hins,
                        ?lookup_empty, ?insert_empty, ?lookup_singleton_eq));
    reflexivity.
Qed.

Lemma wf_init : wf (@init Formatter).
Proof. split; try done; intros *; by rewrite ?lookup_nil. Qed.

Lemma wf_with_package s (a : nat) (e : gmap string (option nat)) (pkg : string) :
  wf s -> maps s !! a = Some e -> e !! pkg = None ->
  wf (with_package a e pkg s).
Proof.
  intros [H1 H2 H3 H4] He Hp.
  assert (a < length (maps s))%nat as Ha by (by eapply lookup_lt_Some).
  assert (forall a' e' k p', <[a := <[pkg := Some (length (objs s))]> e]> (maps s) !! a' = Some e' ->
            e' !! k = Some p' ->
            (k = pkg /\ p' = Some (length (objs s))) \/
            exists e0, maps s !! a' = Some e0 /\ e0 !! k = Some p') as Hcases.
  { intros a' e' k p' He' Hk. destruct (decide (a' = a)) as [->|Hne].
    - rewrite list_lookup_insert_eq in He' by done. injection He' as <-.
      destruct (decide (k = pkg)) as [->|Hk'].
      + rewrite lookup_insert_eq in Hk. left. split; congruence.
      + rewrite lookup_insert_ne in Hk by done. right. by exists e.
    - rewrite list_lookup_insert_ne in He' by done. right. by exists e'. }
  split; unfold with_package; cbn [logger maps objs set_maps set_objs].
  - done.
  - intros rm repo r Hrm Hr. rewrite length_insert. by eapply H2.
  - intros a' e' k p' He' Hk. rewrite length_app. simpl.
    destruct (Hcases a' e' k p' He' Hk) as [[-> ->]|(e0 & He0 & Hk0)].
    + eexists. split; [done|lia].
    + destruct (H3 a' e0 k p' He0 Hk0) as (b & -> & Hb).
      exists b. split; [done|lia].
  - intros a' e' k k' p' He' Hk Hk'.
    destruct (Hcases a' e' k p' He' Hk) as [[-> ->]|(e0 & He0 & Hk0)];
    destruct (Hcases a' e' k' _ He' Hk') as [[-> Heq]|(e1 & He1 & Hk1)];
      try done.
    + destruct (H3 a' e1 k' _ He1 Hk1) as (b & [= <-] & Hb). lia.
    + subst p'. destruct (H3 a' e0 k _ He0 Hk0) as (b & [= <-] & Hb). lia.
    + assert (e1 = e0) as -> by congruence. by eapply H4.
Qed.

Lemma wf_with_repo s (repo pkg : string) :
  wf s -> wf (with_repo repo pkg s).
Proof.
  intros [H1 H2 H3 H4].
  assert (forall a' e' k p', (maps s ++ [{[pkg := Some (length (objs s))]}]) !! a' = Some e' ->
            e' !! k = Some p' ->
            (k = pkg /\ p' = Some (length (objs s))) \/
            exists e0, maps s !! a' = Some e0 /\ e0 !! k = Some p') as Hcases.
  { intros a' e' k p' He' Hk.
    apply lookup_app_Some in He' as [He'|[Hge He']]; [right; by exists e'|].
    apply list_lookup_singleton_Some in He' as [_ <-].
    apply lookup_singleton_Some in Hk as [<- <-]. by left. }
  split; unfold with_repo; cbn [logger maps objs mu repoMap].
  - done.
  - intros rm repo' r [= <-] Hr. rewrite length_app. simpl.
    destruct (decide (repo' = repo)) as [->|Hne].
    + rewrite lookup_insert_eq in Hr. injection Hr as <-.
      eexists. split; [done|lia].
    + rewrite lookup_insert_ne in Hr by done.
      destruct (repoMap (logger s)) as [rm|] eqn:Hrm; simpl in Hr;
        [|by rewrite lookup_empty in Hr].
      destruct (H2 rm repo' r eq_refl Hr) as (a & -> & Ha).
      exists a. split; [done|lia].
  - intros a' e' k p' He' Hk. rewrite length_app. simpl.
    destruct (Hcases a' e' k p' He' Hk) as [[-> ->]|(e0 & He0 & Hk0)].
    + eexists. split; [done|lia].
    + destruct (H3 a' e0 k p' He0 Hk0) as (b & -> & Hb).
      exists b. split; [done|lia].
  - intros a' e' k k' p' He' Hk Hk'.
    destruct (Hcases a' e' k p' He' Hk) as [[-> ->]|(e0 & He0 & Hk0)];
    destruct (Hcases a' e' k' _ He' Hk') as [[-> Heq]|(e1 & He1 & Hk1)];
      try done.
    + destruct (H3 a' e1 k' _ He1 Hk1) as (b & [= <-] & Hb). lia.
    + subst p'. destruct (H3 a' e0 k _ He0 Hk0) as (b & [= <-] & Hb). lia.
    + assert (e1 = e0) as -> by congruence. by eapply H4.
Qed.

(** Registering a registered package returns its handle and changes
    nothing. *)
Lemma NewPackageLogger_registered s (repo pkg : string) (p : option nat) :
  wf s -> package_of s repo pkg = Some p ->
  NewPackageLogger repo pkg s = (Return p, s).
Proof.
  intros Hwf Hp.
  destruct (wf_package s repo pkg p Hwf Hp) as (r & b & v & Hr & Hk & _ & _).
  destruct (wf_handle s repo r Hwf Hr) as (a & e & -> & He & Hpk).
  rewrite Hpk in Hk. eapply NewPackageLogger_existing; [apply Hwf|done..].
Qed.

(** A level stored through a pointer is the level loaded through it. *)
Lemma store_load s (b : nat) (v : packageLogger) (l : Z) :
  objs s !! b = Some v ->
  exists s', store_level (Some b) l s = (Return tt, s') /\
    load_level (Some b) s' = (Return l, s') /\ same_shape s s'.
Proof.
  intros Hv. unfold store_level, load_level. rewrite Hv. eexists.
  split; [done|]. cbn [mbind option_bind objs set_objs].
  rewrite list_lookup_insert_eq by (by eapply lookup_lt_Some).
  split; [done|]. apply same_shape_set_objs; [apply length_insert|].
  intros x. destruct (decide (x = b)) as [->|Hne].
  - rewrite list_lookup_insert_eq by (by eapply lookup_lt_Some). by rewrite Hv.
  - by rewrite list_lookup_insert_ne.
Qed.

Lemma level_of_app s (q : option nat) (os' : list packageLogger) s' :
  objs s' = objs s ++ os' ->
  is_Some (level_of s q) -> level_of s' q = level_of s q.
Proof.
  intros Hobjs. unfold level_of. rewrite Hobjs.
  destruct q as [b|]; cbn [mbind option_bind]; [|done].
  destruct (objs s !! b) as [v|] eqn:Hv; [|by intros [? ?]].
  intros _. by rewrite (lookup_app_l_Some _ _ _ _ Hv).
Qed.

Lemma level_of_fresh s :
  level_of s (Some (length (objs s))) = None.
Proof.
  unfold level_of. cbn [mbind option_bind].
  by rewrite (lookup_ge_None_2 (objs s)).
Qed.

(** C1: [NewPackageLogger] registers once. It returns a handle to the
    package; an unknown repository is created, holding that package only;
    an unknown package is created at INFO; a known package is returned as
    it is and the state is left alone, so a second call gives the same
    handle, and a level stored through one handle is loaded through the
    other and survives another call. *)
Theorem NewPackageLogger_idempotent s (repo pkg : string) :
  wf s ->
  exists p s', NewPackageLogger repo pkg s = (Return p, s') /\ wf s' /\
    package_of s' repo pkg = Some p /\
    (forall q, is_Some (level_of s q) -> level_of s' q = level_of s q) /\
    (forall repo', repo' <> repo -> repo_of s' repo' = repo_of s repo') /\
    (repo_of s repo = None ->
       exists r, repo_of s' repo = Some r /\ packages s r = ∅ /\
         packages s' r = {[pkg := p]}) /\
    (forall r, repo_of s repo = Some r ->
       repo_of s' repo = Some r /\ packages s' r = <[pkg := p]> (packages s r)) /\
    (package_of s repo pkg = None ->
       level_of s p = None /\ level_of s' p = Some INFO) /\
    (forall p0, package_of s repo pkg = Some p0 -> p = p0 /\ s' = s) /\
    (forall p2 s2, NewPackageLogger repo pkg s' = (Return p2, s2) ->
       p2 = p /\ s2 = s') /\
    (forall l, exists s'', store_level p l s' = (Return tt, s'') /\
       forall p2 s2, NewPackageLogger repo pkg s'' = (Return p2, s2) ->
         load_level p2 s2 = (Return l, s2)).
Proof.
  intros Hwf.
  assert (forall p s', wf s' -> package_of s' repo pkg = Some p ->
    (forall p2 s2, NewPackageLogger repo pkg s' = (Return p2, s2) ->
       p2 = p /\ s2 = s') /\
    (forall l, exists s'', store_level p l s' = (Return tt, s'') /\
       forall p2 s2, NewPackageLogger repo pkg s'' = (Return p2, s2) ->
         load_level p2 s2 = (Return l, s2))) as Hagain.
  { intros p s' Hwf' Hp'. split.
    - intros p2 s2. rewrite (NewPackageLogger_registered s' repo pkg p) by done.
      by intros [= <- <-].
    - intros l.
      destruct (wf_package s' repo pkg p Hwf' Hp') as (r & b & v & _ & _ & -> & Hv).
      destruct (store_load s' b v l Hv) as (s'' & Hst & Hld & Hsh).
      exists s''. split; [done|]. intros p2 s2.
      rewrite (NewPackageLogger_registered s'' repo pkg (Some b)).
      + by intros [= <- <-].
      + by eapply wf_same_shape.
      + by rewrite (same_shape_package_of s' s''). }
  destruct (repo_of s repo) as [r|] eqn:Hr.
  - destruct (wf_handle s repo r Hwf Hr) as (a & e & -> & He & Hpk).
    assert (package_of s repo pkg = e !! pkg) as Hpo.
    { unfold package_of. rewrite Hr. simpl. by rewrite Hpk. }
    destruct (e !! pkg) as [p0|] eqn:Hp0.
    + (* the package is registered *)
      exists p0, s.
      split; [by rewrite (NewPackageLogger_registered s repo pkg p0)|].
      split; [done|]. split; [done|]. split; [done|]. split; [done|].
      split; [done|]. split.
      { intros r [= <-]. split; [done|]. rewrite Hpk. by rewrite insert_id. }
      split; [by rewrite Hpo|]. split; [by rewrite Hpo; intros p1 [= <-]|].
      apply Hagain; [done|by rewrite Hpo].
    + (* the repository is registered, the package is new *)
      exists (Some (length (objs s))), (with_package a e pkg s).
      assert (wf (with_package a e pkg s)) as Hwf' by (by apply wf_with_package).
      assert (packages (with_package a e pkg s) (Some a) =
              <[pkg := Some (length (objs s))]> e) as Hpk'.
      { unfold packages, with_package.
        cbn [mbind option_bind maps set_maps set_objs].
        rewrite list_lookup_insert_eq by (by eapply lookup_lt_Some). done. }
      assert (package_of (with_package a e pkg s) repo pkg =
              Some (Some (length (objs s)))) as Hp'.
      { unfold package_of. change (repo_of (with_package a e pkg s) repo)
          with (repo_of s repo). rewrite Hr. cbn [mbind option_bind].
        by rewrite Hpk', lookup_insert_eq. }
      split; [apply NewPackageLogger_new_package; [apply Hwf|done..]|].
      split; [done|]. split; [done|].
      split; [intros q; by apply (level_of_app s q [{| pkg := pkg; level := INFO |}])|].
      split; [done|]. split; [done|]. split.
      { intros r [= <-]. split; [done|]. by rewrite Hpk', Hpk. }
      split.
      { intros _. split; [apply level_of_fresh|].
        unfold level_of, with_package. cbn [mbind option_bind objs set_maps set_objs].
        by rewrite list_lookup_middle. }
      split; [by rewrite Hpo|]. by apply Hagain.
  - (* the repository is new *)
    exists (Some (length (objs s))), (with_repo repo pkg s).
    assert (wf (with_repo repo pkg s)) as Hwf' by (by apply wf_with_repo).
    assert (repo_of (with_repo repo pkg s) repo = Some (Some (length (maps s))))
      as Hr'.
    { unfold repo_of, with_repo. cbn [logger repoMap mbind option_bind].
      by rewrite lookup_insert_eq. }
    assert (packages (with_repo repo pkg s) (Some (length (maps s))) =
            {[pkg := Some (length (objs s))]}) as Hpk'.
    { unfold packages, with_repo. cbn [mbind option_bind maps].
      by rewrite list_lookup_middle. }
    assert (package_of (with_repo repo pkg s) repo pkg =
            Some (Some (length (objs s)))) as Hp'.
    { unfold package_of. rewrite Hr'. cbn [mbind option_bind].
      by rewrite Hpk', lookup_singleton_eq. }
    assert (package_of s repo pkg = None) as Hpo.
    { unfold package_of. by rewrite Hr. }
    split; [apply NewPackageLogger_new_repo; [apply Hwf|done]|].
    split; [done|]. split; [done|].
    split; [intros q; by apply (level_of_app s q [{| pkg := pkg; level := INFO |}])|].
    split.
    { intros repo' Hne. unfold repo_of, with_repo.
      cbn [logger repoMap mbind option_bind]. rewrite lookup_insert_ne by done.
      destruct (repoMap (logger s)); [done|]. simpl. apply lookup_empty. }
    split.
    { intros _. exists (Some (length (maps s))). split; [done|].
      split; [|done]. unfold packages. cbn [mbind option_bind].
      by rewrite (lookup_ge_None_2 (maps s)). }
    split; [done|]. split.
    { intros _. split; [apply level_of_fresh|].
      unfold level_of, with_repo. cbn [mbind option_bind objs].
      by rewrite list_lookup_middle. }
    split; [by rewrite Hpo|]. by apply Hagain.
Qed.

(** ** Calls with any receiver *)

Lemma same_shape_trans s1 s2 s3 :
  same_shape s1 s2 -> same_shape s2 s3 -> same_shape s1 s3.
Proof.
  intros (Hl & Hm & Hn & Hp) (Hl' & Hm' & Hn' & Hp'). split_and!.
  - by rewrite Hl'.
  - by rewrite Hm'.
  - by rewrite Hn'.
  - intros b. by rewrite Hp'.
Qed.

Lemma keeps_shape_ret {A : Type} (a : A) : keeps_shape (ret (Formatter := Formatter) a).
Proof. intros s. split; [done|apply same_shape_refl]. Qed.

Lemma keeps_shape_bind {A B : Type} (m : M Formatter A) (k : A -> M Formatter B) :
  keeps_shape m -> (forall a, keeps_shape (k a)) -> keeps_shape (m ≫= k).
Proof.
  intros Hm Hk s. unfold_M. destruct (Hm s) as [Ho Hs].
  destruct (m s) as [[a|v|] s1]; simpl in *; [|done..].
  destruct (Hk a s1) as [Ho' Hs']. split; [done|]. by eapply same_shape_trans.
Qed.

Lemma keeps_shape_for_each {A : Type} (l : list A) (body : A -> M Formatter unit) :
  (forall x, keeps_shape (body x)) -> keeps_shape (for_each l body).
Proof.
  intros Hbody. induction l as [|x l IH]; [apply keeps_shape_ret|].
  apply (keeps_shape_bind (body x) (fun _ => for_each l body)); [done|]. by intros _.
Qed.

Lemma keeps_shape_entries (r : option nat) :
  keeps_shape (entries (Formatter := Formatter) r).
Proof.
  intros s. unfold entries. destruct r as [a|]; [|split; [done|apply same_shape_refl]].
  destruct (maps s !! a); (split; [done|apply same_shape_refl]).
Qed.

Lemma keeps_shape_store_level (p : option nat) (l : Z) :
  keeps_shape (store_level (Formatter := Formatter) p l).
Proof.
  intros s. unfold store_level.
  destruct p as [b|]; [|split; [done|apply same_shape_refl]].
  destruct (objs s !! b) as [v|] eqn:Hv; [|split; [done|apply same_shape_refl]].
  split; [done|]. apply same_shape_set_objs; [apply length_insert|].
  intros x. destruct (decide (x = b)) as [->|Hne].
  - rewrite list_lookup_insert_eq by (by eapply lookup_lt_Some). by rewrite Hv.
  - by rewrite list_lookup_insert_ne.
Qed.

Lemma keeps_shape_setRepoLogLevelInternal (r : option nat) (l : Z) :
  keeps_shape (setRepoLogLevelInternal (Formatter := Formatter) r l).
Proof.
  apply keeps_shape_bind; [apply keeps_shape_entries|]. intros e.
  apply keeps_shape_for_each. intros [k v]. apply keeps_shape_store_level.
Qed.

(** A call that takes the mutex around a body that keeps the shape. *)
Lemma locked_keeps_shape {A : Type} (body : M Formatter A) s :
  keeps_shape body -> mu (logger s) = false ->
  ((Lock ;; defer Unlock body) s).1 <> Blocked /\
  same_shape s ((Lock ;; defer Unlock body) s).2.
Proof.
  intros Hbody Hmu. unfold_M. unfold Lock, defer, Unlock. rewrite Hmu.
  destruct (Hbody (set_mu true s)) as [Ho (Hl & Hm & Hn & Hp)].
  destruct (body (set_mu true s)) as [o s1]. simpl in Ho, Hl, Hm, Hn, Hp.
  assert (mu (logger s1) = true) as Hmu1 by (by rewrite Hl).
  rewrite Hmu1.
  assert (same_shape s (set_mu false s1)) as Hsh.
  { split_and!; try done. unfold set_mu. cbn [logger]. rewrite Hl. simpl.
    destruct s as [[m0 rm0 f0] ms os]. simpl in *. by subst m0. }
  by destruct o.
Qed.

Lemma RepoLogger_eval s (repo : string) :
  mu (logger s) = false ->
  RepoLogger repo s =
  (Return match repo_of s repo with
          | Some r => (r, None)
          | None => (None, Some ("no packages registered for repo " +:+ repo))
          end, s).
Proof.
  intros Hmu. unfold RepoLogger.
  apply locked_eval_same; [done| |done].
  unfold_M. unfold index, repo_of, errors_New. cbn [logger set_mu repoMap].
  destruct (repoMap (logger s)) as [rm|]; simpl.
  - by destruct (rm !! repo).
  - by rewrite lookup_empty.
Qed.

Lemma MustRepoLogger_eval s (repo : string) :
  mu (logger s) = false ->
  MustRepoLogger repo s =
  (match repo_of s repo with
   | Some r => Return r
   | None => Panic ("no packages registered for repo " +:+ repo)
   end, s).
Proof.
  intros Hmu. unfold MustRepoLogger.
  erewrite mbind_eval by (by apply RepoLogger_eval).
  by destruct (repo_of s repo).
Qed.

Lemma SetFormatter_eval s (f : option Formatter) :
  mu (logger s) = false ->
  SetFormatter f s = (Return tt, set_formatter f s).
Proof.
  intros Hmu. unfold SetFormatter.
  replace (set_formatter f s)
    with (set_mu false (set_formatter f (set_mu true s)))
    by (destruct s as [[m0 rm0 f0] ms os]; simpl in Hmu; by subst m0).
  by apply locked_eval.
Qed.

(** What [NewPackageLogger] does to the invariant and to the set of
    registered repositories. *)
Lemma NewPackageLogger_step s (repo pkg : string) :
  wf s ->
  wf (NewPackageLogger repo pkg s).2 /\
  is_Some (repo_of (NewPackageLogger repo pkg s).2 repo) /\
  forall repo', repo' <> repo ->
    repo_of (NewPackageLogger repo pkg s).2 repo' = repo_of s repo'.
Proof.
  intros Hwf. destruct (repo_of s repo) as [r|] eqn:Hr.
  - destruct (wf_handle s repo r Hwf Hr) as (a & e & -> & He & Hpk).
    destruct (e !! pkg) as [p0|] eqn:Hp0.
    + rewrite (NewPackageLogger_existing s repo pkg a e p0);
        [|apply Hwf|done..].
      cbn [snd]. split; [done|]. split; [by rewrite Hr|done].
    + rewrite (NewPackageLogger_new_package s repo pkg a e);
        [|apply Hwf|done..].
      cbn [snd]. split; [by apply wf_with_package|].
      split; [|done]. change (is_Some (repo_of s repo)). by rewrite Hr.
  - rewrite NewPackageLogger_new_repo; [|apply Hwf|done].
    cbn [snd]. split; [by apply wf_with_repo|].
    unfold repo_of, with_repo. cbn [snd logger repoMap mbind option_bind].
    split; [by rewrite lookup_insert_eq|].
    intros repo' Hne. rewrite lookup_insert_ne by done.
    destruct (repoMap (logger s)); [done|]. simpl. apply lookup_empty.
Qed.

Lemma same_shape_repo_of s s' (repo : string) :
  same_shape s s' -> repo_of s' repo = repo_of s repo.
Proof. intros (Hl & _). unfold repo_of. by rewrite Hl. Qed.

(** Every call keeps the invariant, and only [NewPackageLogger] adds a
    repository. *)
Lemma exec_step (c : call Formatter) s :
  wf s ->
  wf (exec c s) /\
  forall repo,
    is_Some (repo_of (exec c s) repo) <->
    is_Some (repo_of s repo) \/ exists pkg, c = call_NewPackageLogger repo pkg.
Proof.
  intros Hwf.
  assert (forall s', same_shape s s' ->
    wf s' /\ forall repo, is_Some (repo_of s' repo) <-> is_Some (repo_of s repo))
    as Hshape.
  { intros s' Hsh. split; [by eapply wf_same_shape|]. intros repo.
    by rewrite (same_shape_repo_of s s'). }
  assert (forall s', same_shape s s' ->
    (forall repo pkg, c <> call_NewPackageLogger repo pkg) ->
    wf s' /\ forall repo, is_Some (repo_of s' repo) <->
      is_Some (repo_of s repo) \/ exists pkg, c = call_NewPackageLogger repo pkg)
    as Hother.
  { intros s' Hsh Hc. destruct (Hshape s' Hsh) as [Hwf' Hrepo].
    split; [done|]. intros repo. rewrite Hrepo. split; [by left|].
    intros [?|[pkg ?]]; [done|]. by destruct (Hc repo pkg). }
  destruct c as [l|repo0|repo0|r l|r conf|r m|f|repo0 pkg0]; cbn [exec].
  - rewrite SetGlobalLogLevel_eval by done. apply Hother; [|done].
    apply same_shape_set_objs;
      [apply length_foldl_assign_level|apply pkg_foldl_assign_level].
  - rewrite RepoLogger_eval by apply Hwf. apply Hother; [apply same_shape_refl|done].
  - rewrite MustRepoLogger_eval by apply Hwf.
    apply Hother; [apply same_shape_refl|done].
  - apply Hother; [|done]. apply locked_keeps_shape; [|apply Hwf].
    apply keeps_shape_setRepoLogLevelInternal.
  - apply Hother; [apply same_shape_refl|done].
  - apply Hother; [|done]. apply locked_keeps_shape; [|apply Hwf].
    apply keeps_shape_bind.
    + unfold index. destruct (m !! "*");
        [apply keeps_shape_setRepoLogLevelInternal|apply keeps_shape_ret].
    + intros _. apply keeps_shape_for_each. intros [k v].
      apply keeps_shape_bind; [apply keeps_shape_entries|]. intros e.
      unfold index. destruct (e !! k);
        [apply keeps_shape_store_level|apply keeps_shape_ret].
  - rewrite SetFormatter_eval by apply Hwf. split.
    + destruct Hwf as [H1 H2 H3 H4]. by split.
    + intros repo. split; [by left|]. by intros [?|[pkg ?]].
  - destruct (NewPackageLogger_step s repo0 pkg0 Hwf) as (Hwf' & Hnew & Hold).
    split; [done|]. intros repo. destruct (decide (repo = repo0)) as [->|Hne].
    + split; [right; by exists pkg0|done].
    + rewrite Hold by done. split; [by left|].
      intros [?|[pkg [= ? ?]]]; [done|congruence].
Qed.

Lemma run_snoc (cs : list (call Formatter)) (c : call Formatter) s :
  run (cs ++ [c]) s = exec c (run cs s).
Proof. unfold run. by rewrite foldl_app. Qed.

(** After any history the invariant holds, and the registered repositories
    are those a package was registered under. *)
Lemma run_invariant (cs : list (call Formatter)) :
  wf (run cs init) /\
  forall repo, is_Some (repo_of (run cs init) repo) <-> registered_in cs repo.
Proof.
  induction cs as [|c cs [IHwf IHrepo]] using rev_ind.
  - split; [apply wf_init|]. intros repo. split.
    + by intros [r Hr].
    + intros [pkg Hin]. by apply elem_of_nil in Hin.
  - rewrite run_snoc. destruct (exec_step c (run cs init) IHwf) as [Hwf Hrepo].
    split; [done|]. intros repo. rewrite Hrepo, IHrepo. unfold registered_in.
    split.
    + intros [[pkg Hin]|[pkg ->]]; exists pkg; apply elem_of_app;
        [by left|right; apply list_elem_of_here].
    + intros [pkg Hin]. apply elem_of_app in Hin as [Hin|Hin]; [left; by exists pkg|].
      apply list_elem_of_singleton in Hin. right. by exists pkg.
Qed.

(** C6: while no package was ever registered under [repo], [RepoLogger]
    returns the [nil] handle and an error that names [repo], and
    [MustRepoLogger] panics with that error; neither changes the state, so
    no repository is created. *)
Theorem RepoLogger_unregistered (repo : string) :
  mentions ("no packages registered for repo " +:+ repo) repo /\
  (forall s, mu (logger s) = false -> repo_of s repo = None ->
     RepoLogger repo s =
       (Return (None, Some ("no packages registered for repo " +:+ repo)), s) /\
     MustRepoLogger repo s =
       (Panic ("no packages registered for repo " +:+ repo), s)) /\
  (forall cs : list (call Formatter), ~ registered_in cs repo ->
     RepoLogger repo (run cs init) =
       (Return (None, Some ("no packages registered for repo " +:+ repo)),
        run cs init) /\
     MustRepoLogger repo (run cs init) =
       (Panic ("no packages registered for repo " +:+ repo), run cs init) /\
     repo_of (run cs init) repo = None) /\
  (forall cs : list (call Formatter), registered_in cs repo ->
     exists r, RepoLogger repo (run cs init) = (Return (r, None), run cs init) /\
       MustRepoLogger repo (run cs init) = (Return r, run cs init)).
Proof.
  split; [apply mentions_suffix|].
  assert (forall s, mu (logger s) = false -> repo_of s repo = None ->
     RepoLogger repo s =
       (Return (None, Some ("no packages registered for repo " +:+ repo)), s) /\
     MustRepoLogger repo s =
       (Panic ("no packages registered for repo " +:+ repo), s)) as Hstate.
  { intros s Hmu Hr.
    rewrite RepoLogger_eval, MustRepoLogger_eval by done. by rewrite Hr. }
  split; [done|]. split.
  - intros cs Hcs. destruct (run_invariant cs) as [Hwf Hrepo].
    assert (repo_of (run cs init) repo = None) as Hr.
    { destruct (repo_of (run cs init) repo) as [r|] eqn:Hr; [|done].
      destruct Hcs. apply Hrepo. by exists r. }
    destruct (Hstate (run cs init)) as [H1 H2]; [apply Hwf|done|]. done.
  - intros cs Hcs. destruct (run_invariant cs) as [Hwf Hrepo].
    apply Hrepo in Hcs as [r Hr]. exists r.
    rewrite RepoLogger_eval, MustRepoLogger_eval by apply Hwf. by rewrite Hr.
Qed.

End registry_proofs.

(** ** The theorems at concrete inputs *)

Lemma wf_state_R_ab : wf state_R_ab.
Proof. apply NewPackageLogger_step, NewPackageLogger_step, wf_init. Qed.

Lemma bogus_not_accepted : "bogus" ∉ accepted_forms.
Proof.
  rewrite accepted_forms_unfold. intros H.
  repeat (apply elem_of_cons in H as [H|H]; [discriminate|]).
  by apply elem_of_nil in H.
Qed.

Lemma seven_not_a_level : 7 ∉ Levels.
Proof.
  intros H. apply elem_of_Levels in H.
  by destruct H as [H|[H|[H|[H|[H|[H|H]]]]]].
Qed.

Lemma INFO_is_a_level : INFO ∈ Levels.
Proof. apply elem_of_Levels. tauto. Qed.

Lemma token_ok_a_INFO : token_ok "a=INFO".
Proof. exists "a", "INFO", INFO. by split. Qed.

Lemma unknown_not_registered :
  ~ registered_in history_R "unknown".
Proof.
  intros [pkg H]. unfold history_R in H.
  repeat (apply elem_of_cons in H as [H|H]; [discriminate|]).
  by apply elem_of_nil in H.
Qed.

Lemma star_and_unknown_names (k : string) :
  k <> "*" -> is_Some (star_and_unknown !! k) ->
  packages state_R_ab (Some 0%nat) !! k = None.
Proof.
  intros Hk [v Hv]. unfold star_and_unknown in Hv.
  rewrite lookup_insert_ne in Hv by done.
  apply lookup_singleton_Some in Hv as [<- _]. by vm_compute.
Qed.

Lemma Char_distinct_or_panic_witness :
  (7 ∉ Levels) /\ Char 7 = Panic "Unhandled loglevel".
Proof.
  split; [exact seven_not_a_level|].
  exact (proj2 (proj2 (proj2 Char_distinct_or_panic)) 7 seven_not_a_level).
Defined.

Lemma ParseLevel_left_inverse_witness :
  INFO ∈ Levels /\ ERROR <= INFO <= TRACE /\
  ParseLevel (digit_string INFO) = (INFO, None).
Proof.
  split; [exact INFO_is_a_level|].
  assert (ERROR <= INFO <= TRACE) as Hrange by (by compute).
  split; [exact Hrange|].
  exact (proj2 (proj2 (proj2 (proj1 ParseLevel_left_inverse INFO INFO_is_a_level))
                 Hrange)).
Defined.

Lemma ParseLevel_unrecognized_witness :
  ("bogus" ∉ accepted_forms) /\
  ParseLevel "bogus" = (CRITICAL, Some "couldn't parse log level bogus").
Proof.
  split; [exact bogus_not_accepted|].
  exact (proj1 (proj1 ParseLevel_unrecognized "bogus" bogus_not_accepted)).
Defined.

Lemma ParseLogLevelConfig_first_error_witness :
  Split "a=INFO,b=x=y" ","%char = ["a=INFO"] ++ "b=x=y" :: [] /\
  Forall token_ok ["a=INFO"] /\
  length (Split "b=x=y" "="%char) <> 2%nat /\
  ParseLogLevelConfig None "a=INFO,b=x=y" =
    (None, Some "oddly structured `pkg=level` option: b=x=y").
Proof.
  assert (Forall token_ok ["a=INFO"]) as Hpre
    by (constructor; [exact token_ok_a_INFO|constructor]).
  assert (length (Split "b=x=y" "="%char) <> 2%nat) as Hlen by (by compute).
  split; [reflexivity|]. split; [exact Hpre|]. split; [exact Hlen|].
  exact (proj1 (proj1 (proj2 (ParseLogLevelConfig_first_error None))
                 "a=INFO,b=x=y" ["a=INFO"] "b=x=y" [] eq_refl Hpre Hlen)).
Defined.

Lemma ParseLogLevelConfig_empty_token_witness :
  Split "a=INFO," ","%char = ["a=INFO"] ++ "" :: [] /\
  Forall token_ok ["a=INFO"] /\
  ParseLogLevelConfig None "a=INFO," =
    (None, Some "oddly structured `pkg=level` option: ").
Proof.
  assert (Forall token_ok ["a=INFO"]) as Hpre
    by (constructor; [exact token_ok_a_INFO|constructor]).
  split; [reflexivity|]. split; [exact Hpre|].
  exact (proj1 (proj2 (proj2 (proj2 (proj2 (proj2
           (ParseLogLevelConfig_empty_token None))))))
           "a=INFO," ["a=INFO"] [] eq_refl Hpre).
Defined.

Lemma SetGlobalLogLevel_sets_all_witness :
  wf state_R_ab /\
  exists s', SetGlobalLogLevel (order := listed_order) WARNING state_R_ab =
               (Return tt, s') /\
    level_of s' (Some 0%nat) = Some WARNING /\
    level_of s' (Some 1%nat) = Some WARNING.
Proof.
  split; [exact wf_state_R_ab|].
  destruct (SetGlobalLogLevel_sets_all (order := listed_order) WARNING
              state_R_ab wf_state_R_ab) as (s' & Hev & _ & _ & Hall).
  exists s'. split; [exact Hev|]. split.
  - exact (proj2 (Hall "R" "a" (Some 0%nat) eq_refl)).
  - exact (proj2 (Hall "R" "b" (Some 1%nat) eq_refl)).
Defined.

Lemma SetLogLevel_star_first_witness :
  wf state_R_ab /\ repo_of state_R_ab "R" = Some (Some 0%nat) /\
  exists s', SetLogLevel (order := listed_order) (Some 0%nat)
               (<["b" := DEBUG]> (<["*" := ERROR]> ∅)) state_R_ab =
               (Return tt, s') /\
    level_of s' (Some 0%nat) = Some ERROR /\
    level_of s' (Some 1%nat) = Some DEBUG.
Proof.
  split; [exact wf_state_R_ab|]. split; [reflexivity|].
  exact (proj2 (SetLogLevel_star_first (order := listed_order) state_R_ab "R"
                  (Some 0%nat) wf_state_R_ab eq_refl)
           (Some 0%nat) (Some 1%nat) (<["b" := DEBUG]> (<["*" := ERROR]> ∅))
           eq_refl eq_refl eq_refl eq_refl eq_refl).
Defined.

Lemma SetLogLevel_unknown_names_witness :
  wf state_R_ab /\ repo_of state_R_ab "R" = Some (Some 0%nat) /\
  packages state_R_ab (Some 0%nat) !! "unknownpkg" = None /\
  SetLogLevel (order := listed_order) (Some 0%nat) {["unknownpkg" := TRACE]}
    state_R_ab = (Return tt, state_R_ab).
Proof.
  split; [exact wf_state_R_ab|]. split; [reflexivity|]. split; [reflexivity|].
  exact (proj2 (SetLogLevel_unknown_names (order := listed_order) state_R_ab "R"
                  (Some 0%nat) wf_state_R_ab eq_refl) eq_refl).
Defined.

Lemma NewPackageLogger_idempotent_witness :
  wf (@init unit) /\
  exists p s', NewPackageLogger "repoA" "pkgA" (@init unit) = (Return p, s') /\
    NewPackageLogger "repoA" "pkgA" s' = (Return p, s') /\
    level_of s' p = Some INFO.
Proof.
  split; [exact wf_init|].
  destruct (NewPackageLogger_idempotent (@init unit) "repoA" "pkgA" wf_init)
    as (p & s' & Hev & Hwf & Hp & _ & _ & _ & _ & Hnew & _ & Hagain & _).
  exists p, s'. split; [exact Hev|]. split.
  - rewrite (NewPackageLogger_registered s' "repoA" "pkgA" p Hwf Hp). reflexivity.
  - exact (proj2 (Hnew eq_refl)).
Defined.

Lemma RepoLogger_unregistered_witness :
  ~ registered_in history_R "unknown" /\
  RepoLogger "unknown" (run (order := listed_order) history_R init) =
    (Return (None, Some "no packages registered for repo unknown"),
     run (order := listed_order) history_R init).
Proof.
  split; [exact unknown_not_registered|].
  exact (proj1 (proj1 (proj2 (proj2 (RepoLogger_unregistered
           (order := listed_order) "unknown"))) history_R
           unknown_not_registered)).
Defined.

(** C5 as stated fails: every name of the map other than * is unknown to
    R, yet the call moves package a from INFO to ERROR. *)
Lemma SetLogLevel_star_changes_levels :
  wf state_R_ab /\ repo_of state_R_ab "R" = Some (Some 0%nat) /\
  (forall k, k <> "*" -> is_Some (star_and_unknown !! k) ->
     packages state_R_ab (Some 0%nat) !! k = None) /\
  package_of state_R_ab "R" "a" = Some (Some 0%nat) /\
  level_of state_R_ab (Some 0%nat) = Some INFO /\
  (exists s', SetLogLevel (order := listed_order) (Some 0%nat) star_and_unknown
                state_R_ab = (Return tt, s') /\
     level_of s' (Some 0%nat) = Some ERROR) /\
  ~ (forall (s : state unit) (repo : string) (r : option nat) (m : gmap string Z),
       wf s -> repo_of s repo = Some r ->
       (forall k, k <> "*" -> is_Some (m !! k) -> packages s r !! k = None) ->
       forall k p, packages s r !! k = Some p ->
         level_of (SetLogLevel (order := listed_order) r m s).2 p = level_of s p).
Proof.
  split; [exact wf_state_R_ab|]. split; [reflexivity|].
  split; [exact star_and_unknown_names|]. split; [reflexivity|].
  split; [reflexivity|]. split.
  - eexists. split; [by vm_compute|]. by vm_compute.
  - intros H.
    specialize (H state_R_ab "R" (Some 0%nat) star_and_unknown wf_state_R_ab
                  eq_refl star_and_unknown_names "a" (Some 0%nat) eq_refl).
    vm_compute in H. discriminate.
Qed.

(** * Further properties of the parsers *)

Lemma ParseLevel_cases (s : string) :
  (exists l, ParseLevel s = (l, None) /\ l ∈ Levels /\ s ∈ forms_of l) \/
  ParseLevel s = (CRITICAL, Some ("couldn't parse log level " +:+ s)).
Proof.
  unfold ParseLevel.
  repeat match goal with
  | |- context [case_of s ?alts] =>
      destruct (case_of s alts) eqn:E;
      [apply case_of_spec in E; left; eexists; split; [reflexivity|];
       split; [apply elem_of_Levels; tauto|];
       rewrite !elem_of_cons, elem_of_nil in E; cbv [forms_of]; simpl;
       rewrite !elem_of_cons; tauto
      | clear E]
  end.
  by right.
Qed.

(** X5: whatever the input, the level [ParseLevel] returns is one of the
    seven constants, so [Char] of it returns; when the error is [nil] the
    input is the name, the character or the digit of that level, and when
    it is not the level is CRITICAL. *)
Theorem ParseLevel_sound (s : string) (l : Z) (err : option string) :
  ParseLevel s = (l, err) ->
  l ∈ Levels /\ (exists c, Char l = Return c) /\
  (err = None -> s ∈ forms_of l) /\
  (err <> None -> l = CRITICAL /\ s ∉ accepted_forms).
Proof.
  intros Hp.
  assert (l ∈ Levels) as Hl.
  { destruct (ParseLevel_cases s) as [(l' & Hp' & Hl' & _)|Hp'];
      rewrite Hp' in Hp; injection Hp as <- <-; [done|].
    apply elem_of_Levels. tauto. }
  split; [done|]. split.
  { apply elem_of_Levels in Hl.
    destruct Hl as [->|[->|[->|[->|[->|[->| ->]]]]]]; by eexists. }
  destruct (ParseLevel_cases s) as [(l' & Hp' & Hl' & Hs)|Hp'];
    rewrite Hp' in Hp; injection Hp as <- <-.
  - by split.
  - split; [done|]. intros _. split; [done|].
    intros Hin. apply ParseLevel_accept in Hin. by rewrite Hp' in Hin.
Qed.

Lemma token_level_in_Levels (t : string) : token_level t ∈ Levels.
Proof.
  unfold token_level.
  destruct (ParseLevel_cases (nth 1 (Split t "="%char) EmptyString))
    as [(l & -> & Hl & _)| ->]; [done|].
  apply elem_of_Levels. tauto.
Qed.

Lemma add_token_insert (out : gmap string Z) (t : string) :
  add_token out t = <[token_name t := token_level t]> out.
Proof. reflexivity. Qed.

(** The loop succeeds on well-formed tokens only. *)
Lemma loop_success_inv (l : list string) (out m : gmap string Z) :
  ParseLogLevelConfig_loop l out = (Some m, None) -> Forall token_ok l.
Proof.
  revert out. induction l as [|t l IH]; intros out; [by constructor|].
  simpl.
  destruct (Nat.eqb_spec (length (Split t "="%char)) 2) as [Hlen|Hlen];
    [|done]. simpl.
  destruct (ParseLevel (nth 1 (Split t "="%char) EmptyString)) as [lv [e|]] eqn:Hp;
    [done|].
  intros Hrest. constructor; [|by eapply IH].
  unfold token_ok.
  destruct (Split t "="%char) as [|k [|v [|? ?]]]; try done.
  by exists k, v, lv.
Qed.

Lemma loop_success (l : list string) :
  Forall token_ok l ->
  ParseLogLevelConfig_loop l ∅ = (Some (foldl add_token ∅ l), None).
Proof.
  intros Hl. rewrite <- (app_nil_r l) at 1. by rewrite loop_app.
Qed.

(** X6: [ParseLogLevelConfig] succeeds exactly on the configurations all
    of whose tokens are well formed; otherwise it returns the [nil] map
    and an error. *)
Theorem ParseLogLevelConfig_success_iff (r : option nat) (conf : string) :
  ((exists m, ParseLogLevelConfig r conf = (Some m, None)) <->
   Forall token_ok (Split conf ","%char)) /\
  ((exists e, ParseLogLevelConfig r conf = (None, Some e)) <->
   ~ Forall token_ok (Split conf ","%char)).
Proof.
  unfold ParseLogLevelConfig.
  assert ((exists m, ParseLogLevelConfig_loop (Split conf ","%char) ∅ = (Some m, None)) <->
          Forall token_ok (Split conf ","%char)) as Hiff.
  { split.
    - intros [m Hm]. by eapply loop_success_inv.
    - intros Hall. eexists. by apply loop_success. }
  split; [done|]. split.
  - intros [e He] Hall. apply Hiff in Hall as [m Hm]. congruence.
  - intros Hnot.
    destruct (loop_result (Split conf ","%char) ∅) as [[e He]|[m Hm]];
      [by exists e|].
    destruct Hnot. apply Hiff. by exists m.
Qed.

(** The map built from a list of tokens gives a name the level of the last
    token with that name. *)
Lemma lookup_foldl_add_token (l : list string) (k : string) :
  foldl add_token ∅ l !! k =
  token_level <$> last (filter (fun t => token_name t = k) l).
Proof.
  induction l as [|t l IH] using rev_ind; [done|].
  rewrite foldl_app. cbn [foldl]. rewrite add_token_insert, filter_app.
  destruct (decide (token_name t = k)) as [Hk|Hk].
  - rewrite (filter_cons_True _ t []) by done.
    rewrite filter_nil, last_snoc. subst k. by rewrite lookup_insert_eq.
  - rewrite (filter_cons_False _ t []) by done.
    rewrite filter_nil, app_nil_r. by rewrite lookup_insert_ne.
Qed.

Lemma filter_token_name_none (k : string) (l : list string) :
  Forall (fun u => token_name u <> k) l ->
  filter (fun u => token_name u = k) l = [].
Proof.
  induction 1 as [|u l Hu _ IH]; [done|]. by rewrite filter_cons_False.
Qed.

(** X7: in the map [ParseLogLevelConfig] returns, a name has the level of
    the last token that carries it: a later token overrides an earlier one
    with the same name, and a name no token carries is absent. *)
Theorem ParseLogLevelConfig_last_wins (r : option nat) (conf : string)
    (m : gmap string Z) :
  ParseLogLevelConfig r conf = (Some m, None) ->
  (forall k, m !! k =
     token_level <$> last (filter (fun t => token_name t = k) (Split conf ","%char))) /\
  (forall pre t post, Split conf ","%char = pre ++ t :: post ->
     Forall (fun u => token_name u <> token_name t) post ->
     m !! token_name t = Some (token_level t)) /\
  (forall k, is_Some (m !! k) <->
     exists t, t ∈ Split conf ","%char /\ token_name t = k).
Proof.
  intros Hm. unfold ParseLogLevelConfig in Hm.
  pose proof (loop_success_inv _ _ _ Hm) as Hall.
  rewrite loop_success in Hm by done. injection Hm as <-.
  split; [apply lookup_foldl_add_token|]. split.
  - intros pre t post Hsplit Hpost. rewrite lookup_foldl_add_token, Hsplit.
    rewrite filter_app, filter_cons_True by done.
    replace (filter (fun u => token_name u = token_name t) post) with (@nil string).
    + by rewrite last_snoc.
    + symmetry. by apply filter_token_name_none.
  - intros k. rewrite lookup_foldl_add_token, fmap_is_Some. split.
    + intros [t Ht]. apply last_Some_elem_of in Ht.
      apply list_elem_of_filter in Ht as [Hk Hin]. by exists t.
    + intros (t & Hin & Hk).
      destruct (last (filter (fun t => token_name t = k) (Split conf ","%char)))
        as [u|] eqn:Hlast; [by exists u|].
      apply last_None in Hlast.
      assert (t ∈ filter (fun t => token_name t = k) (Split conf ","%char)) as Hf
        by (by apply list_elem_of_filter).
      rewrite Hlast in Hf. by apply elem_of_nil in Hf.
Qed.

Lemma has_byte_Split_sep (s : string) (sep : ascii) (t : string) :
  t ∈ Split s sep -> has_byte sep t = false.
Proof.
  revert t. induction s as [|c s IH]; intros t; simpl.
  - intros Ht. apply list_elem_of_singleton in Ht. by subst t.
  - destruct (Ascii.eqb c sep) eqn:E.
    + intros [->|Ht]%elem_of_cons; [done|by apply IH].
    + destruct (Split s sep) as [|h tl]; simpl.
      * intros Ht. apply list_elem_of_singleton in Ht. subst t. simpl.
        by rewrite E.
      * intros [->|Ht]%elem_of_cons.
        -- simpl. rewrite E. apply IH, list_elem_of_here.
        -- apply IH. by apply list_elem_of_further.
Qed.

Lemma has_byte_Split_other (c : ascii) (s : string) (sep : ascii) (t : string) :
  has_byte c s = false -> t ∈ Split s sep -> has_byte c t = false.
Proof.
  revert t. induction s as [|x s IH]; intros t; simpl.
  - intros _ Ht. apply list_elem_of_singleton in Ht. by subst t.
  - intros [Hx Hs]%orb_false_elim. specialize (IH ltac:(done) ltac:(done)) as IH'.
    destruct (Ascii.eqb x sep).
    + intros [->|Ht]%elem_of_cons; [done|by apply IH].
    + destruct (Split s sep) as [|h tl]; simpl.
      * intros Ht. apply list_elem_of_singleton in Ht. subst t. simpl.
        by rewrite Hx.
      * intros [->|Ht]%elem_of_cons.
        -- simpl. rewrite Hx. apply IH; [done|apply list_elem_of_here].
        -- apply IH; [done|by apply list_elem_of_further].
Qed.

(** X8: a name in the map [ParseLogLevelConfig] returns is the part of a
    token before its = sign, so it holds neither a comma nor an = sign,
    and its level is one of the seven constants. *)
Theorem ParseLogLevelConfig_names_levels (r : option nat) (conf : string)
    (m : gmap string Z) (k : string) (l : Z) :
  ParseLogLevelConfig r conf = (Some m, None) -> m !! k = Some l ->
  has_byte ","%char k = false /\ has_byte "="%char k = false /\ l ∈ Levels /\
  exists t v, t ∈ Split conf ","%char /\ Split t "="%char = [k; v] /\
    ParseLevel v = (l, None).
Proof.
  intros Hm Hk. unfold ParseLogLevelConfig in Hm.
  pose proof (loop_success_inv _ _ _ Hm) as Hall.
  rewrite loop_success in Hm by done. injection Hm as <-.
  rewrite lookup_foldl_add_token in Hk.
  apply fmap_Some in Hk as (t & Hlast & ->).
  apply last_Some_elem_of, list_elem_of_filter in Hlast as [Hname Hin].
  rewrite Forall_forall in Hall.
  destruct (Hall t Hin) as (k0 & v & lv & Hs & Hp).
  assert (k = k0) as -> by (unfold token_name in Hname; by rewrite Hs in Hname).
  assert (k0 ∈ Split t "="%char) as Hk0 by (rewrite Hs; apply list_elem_of_here).
  split_and!.
  - eapply has_byte_Split_other; [|exact Hk0]. by eapply has_byte_Split_sep.
  - by eapply has_byte_Split_sep.
  - apply token_level_in_Levels.
  - exists t, v. split; [done|]. split; [done|].
    unfold token_level. rewrite Hs. simpl. by rewrite Hp.
Qed.

Lemma NoDup_fmap_eq {A B : Type} (f : A -> B) (l : list A) (x y : A) :
  NoDup (f <$> l) -> x ∈ l -> y ∈ l -> f x = f y -> x = y.
Proof.
  induction l as [|z l IH]; [by intros _ ?%elem_of_nil|].
  rewrite fmap_cons, NoDup_cons. intros [Hz Hnd].
  intros [->|Hx]%elem_of_cons [->|Hy]%elem_of_cons Hf; [done| | |by apply IH].
  - destruct Hz. rewrite Hf. by apply list_elem_of_fmap_2.
  - destruct Hz. rewrite <- Hf. by apply list_elem_of_fmap_2.
Qed.

(** With pairwise distinct names the map holds exactly the tokens. *)
Lemma lookup_foldl_add_token_NoDup (l : list string) (k : string) (lv : Z) :
  NoDup (token_name <$> l) ->
  foldl add_token ∅ l !! k = Some lv <->
  exists t, t ∈ l /\ token_name t = k /\ token_level t = lv.
Proof.
  intros Hnd. rewrite lookup_foldl_add_token, fmap_Some. split.
  - intros (t & Hlast & ->).
    apply last_Some_elem_of, list_elem_of_filter in Hlast as [Hname Hin].
    by exists t.
  - intros (t & Hin & Hname & Hlv). exists t. split; [|done].
    destruct (last (filter (fun u => token_name u = k) l)) as [u|] eqn:Hlast.
    + f_equal. pose proof Hlast as Hu.
      apply last_Some_elem_of, list_elem_of_filter in Hu as [Hu Hinu].
      apply (NoDup_fmap_eq token_name l); [done..|congruence].
    + apply last_None in Hlast.
      assert (t ∈ filter (fun u => token_name u = k) l) as Hf
        by (by apply list_elem_of_filter).
      rewrite Hlast in Hf. by apply elem_of_nil in Hf.
Qed.

(** X9: two configurations with the same tokens in another order, all well
    formed and with pairwise distinct names, parse to the same map. *)
Theorem ParseLogLevelConfig_permutation (r : option nat) (conf1 conf2 : string) :
  Split conf1 ","%char ≡ₚ Split conf2 ","%char ->
  NoDup (token_name <$> Split conf1 ","%char) ->
  Forall token_ok (Split conf1 ","%char) ->
  ParseLogLevelConfig r conf1 = ParseLogLevelConfig r conf2 /\
  exists m, ParseLogLevelConfig r conf1 = (Some m, None).
Proof.
  intros Hperm Hnd Hok. unfold ParseLogLevelConfig.
  assert (Forall token_ok (Split conf2 ","%char)) as Hok2 by (by rewrite <- Hperm).
  assert (NoDup (token_name <$> Split conf2 ","%char)) as Hnd2 by (by rewrite <- Hperm).
  rewrite !loop_success by done. split; [|by eexists].
  f_equal. f_equal. apply map_eq. intros k. apply option_eq. intros lv.
  rewrite !lookup_foldl_add_token_NoDup by done.
  by setoid_rewrite Hperm.
Qed.

(** * Further properties of the registry *)

Section registry_more.

Context {Formatter : Type}.
Context `{order : RangeOrder}.

Implicit Types s : state Formatter.

Lemma range_empty {V : Type} : range (∅ : gmap string V) = [].
Proof.
  apply Permutation_nil_r. rewrite (range_perm V ∅).
  by rewrite map_to_list_empty.
Qed.

Lemma range_singleton {V : Type} (k : string) (v : V) :
  range ({[k := v]} : gmap string V) = [(k, v)].
Proof.
  apply Permutation_singleton_r. rewrite (range_perm V {[k := v]}).
  by rewrite map_to_list_singleton.
Qed.

Lemma SetRepoLogLevel_eval s (r : option nat) (l : Z) :
  mu (logger s) = false -> sound_handle s r ->
  SetRepoLogLevel r l s =
  (Return tt,
   set_objs (foldl (assign_level l) (objs s) (range (packages s r)).*2) s).
Proof.
  intros Hmu Hr. unfold SetRepoLogLevel.
  rewrite <- (unlock_after s) by done.
  apply locked_eval; [done| |done|done].
  by apply (setRepoLogLevelInternal_eval (set_mu true s)).
Qed.

(** A receiver that is [nil] or a made map has sound entries. *)
Lemma wf_receiver_sound s (r : option nat) :
  wf s -> (forall a, r = Some a -> (a < length (maps s))%nat) ->
  sound_handle s r.
Proof.
  intros Hwf Hr. split.
  - intros a Ha. apply lookup_lt_is_Some. by apply Hr.
  - intros k p. unfold packages. destruct r as [a|]; simpl; [|by rewrite lookup_empty].
    destruct (maps s !! a) as [e|] eqn:He; simpl; [|by rewrite lookup_empty].
    intros Hk. by eapply wf_entries.
Qed.

(** X1: [SetRepoLogLevel] on the handle of a registered repository returns
    and leaves every package of that repository at [l]; an object no entry
    of the repository points to is left as it was. *)
Theorem SetRepoLogLevel_sets_repo s (repo : string) (r : option nat) (l : Z) :
  wf s -> repo_of s repo = Some r ->
  exists s', SetRepoLogLevel r l s = (Return tt, s') /\
    same_shape s s' /\
    (forall k p, packages s r !! k = Some p -> level_of s' p = Some l) /\
    (forall b, (forall k, packages s r !! k <> Some (Some b)) ->
       objs s' !! b = objs s !! b).
Proof.
  intros Hwf Hr.
  pose proof (wf_sound_handle s repo r Hwf Hr) as Hs.
  eexists. split; [apply SetRepoLogLevel_eval; [apply Hwf|done]|].
  split; [apply same_shape_set_objs;
            [apply length_foldl_assign_level|apply pkg_foldl_assign_level]|].
  split.
  - intros k p Hk. destruct Hs as [_ Hs]. destruct (Hs k p Hk) as (b & -> & Hb).
    apply lookup_lt_is_Some in Hb as [v Hv].
    unfold level_of. cbn [mbind option_bind objs set_objs].
    rewrite lookup_foldl_assign_level, Hv. rewrite decide_True; [done|].
    apply list_elem_of_fmap. exists (k, Some b). split; [done|].
    by apply range_elem_of.
  - intros b Hb. cbn [objs set_objs]. rewrite lookup_foldl_assign_level.
    rewrite decide_False; [done|]. intros Hin.
    apply list_elem_of_fmap in Hin as ([k p] & Heq & Hin). simpl in Heq. subst p.
    apply range_elem_of in Hin. by apply Hb in Hin.
Qed.

Lemma assign_level_same (l : Z) (os : list packageLogger) (p : option nat) :
  (forall b v, p = Some b -> os !! b = Some v -> level v = l) ->
  assign_level l os p = os.
Proof.
  intros Hl. destruct p as [b|]; [|done]. unfold assign_level.
  destruct (os !! b) as [v|] eqn:Hv; [|done].
  apply list_insert_id. rewrite Hv. f_equal.
  rewrite <- (Hl b v eq_refl Hv). by destruct v.
Qed.

(** X2: on the handle of a registered repository, [SetLogLevel] with the
    map that has the one name * does what [SetRepoLogLevel] does with the
    level of *. *)
Theorem SetLogLevel_star_only s (repo : string) (r : option nat) (l : Z) :
  wf s -> repo_of s repo = Some r ->
  SetLogLevel r {["*" := l]} s = SetRepoLogLevel r l s.
Proof.
  intros Hwf Hr. pose proof (wf_sound_handle s repo r Hwf Hr) as Hs.
  rewrite SetLogLevel_eval, SetRepoLogLevel_eval by (done || apply Hwf).
  f_equal. f_equal. unfold levels_after.
  rewrite lookup_singleton_eq, range_singleton. cbn [foldl].
  unfold assign_entry. cbn [fst snd].
  destruct (packages s r !! "*") as [p|] eqn:Hp; [|done].
  apply assign_level_same. intros b v -> Hv.
  rewrite lookup_foldl_assign_level in Hv.
  rewrite decide_True in Hv.
  - apply fmap_Some in Hv as (v0 & _ & ->). done.
  - apply list_elem_of_fmap. exists ("*", Some b). split; [done|].
    by apply range_elem_of.
Qed.

Lemma sound_handle_nil s : sound_handle s None.
Proof.
  split; [done|]. intros k p. unfold packages. simpl. by rewrite lookup_empty.
Qed.

Lemma foldl_assign_entry_empty (kvs : list (string * Z)) (os : list packageLogger) :
  foldl (assign_entry ∅) os kvs = os.
Proof.
  induction kvs as [|kv kvs IH]; [done|]. cbn [foldl].
  unfold assign_entry at 2. by rewrite lookup_empty.
Qed.

(** X3: the level-setting methods on the [nil] handle, the one a failed
    [RepoLogger] returns, return without a panic and change nothing. *)
Theorem nil_receiver_is_harmless s (repo : string) :
  mu (logger s) = false ->
  (forall l, SetRepoLogLevel None l s = (Return tt, s)) /\
  (forall m, SetLogLevel None m s = (Return tt, s)) /\
  (repo_of s repo = None ->
   exists r e, RepoLogger repo s = (Return (r, Some e), s) /\
     (forall l, SetRepoLogLevel r l s = (Return tt, s)) /\
     (forall m, SetLogLevel r m s = (Return tt, s))).
Proof.
  intros Hmu.
  assert (forall l, SetRepoLogLevel None l s = (Return tt, s)) as H1.
  { intros l. rewrite SetRepoLogLevel_eval; [|done|apply sound_handle_nil].
    unfold packages. simpl. rewrite range_empty. simpl. by rewrite set_objs_id. }
  assert (forall m, SetLogLevel None m s = (Return tt, s)) as H2.
  { intros m. rewrite SetLogLevel_eval; [|done|apply sound_handle_nil].
    unfold packages, levels_after. simpl. rewrite range_empty. simpl.
    rewrite foldl_assign_entry_empty.
    destruct (m !! "*"); by rewrite set_objs_id. }
  split; [done|]. split; [done|].
  intros Hr. exists None. eexists. rewrite RepoLogger_eval by done.
  rewrite Hr. by split.
Qed.

Lemma requested_idem (m : gmap string Z) (k : string) (old : Z) :
  requested m k (requested m k old) = requested m k old.
Proof.
  unfold requested. destruct (m !! k); [done|]. by destruct (m !! "*").
Qed.

(** X4: applying the same map a second time changes nothing. *)
Theorem SetLogLevel_idempotent s (repo : string) (r : option nat)
    (m : gmap string Z) :
  wf s -> repo_of s repo = Some r ->
  exists s1, SetLogLevel r m s = (Return tt, s1) /\
    SetLogLevel r m s1 = (Return tt, s1).
Proof.
  intros Hwf Hr.
  pose proof (wf_sound_handle s repo r Hwf Hr) as Hs.
  destruct (wf_handle s repo r Hwf Hr) as (a & e & -> & He & Hp).
  eexists. split; [apply SetLogLevel_eval; [apply Hwf|done]|].
  rewrite SetLogLevel_eval.
  - f_equal. cbn [objs set_objs].
    change (packages (set_objs _ s) (Some a)) with (packages s (Some a)).
    rewrite Hp. unfold set_objs. cbn [logger maps]. f_equal.
    apply list_eq. intros b.
    destruct (decide (Some b ∈ (map_to_list e).*2)) as [Hin|Hin].
    + apply list_elem_of_fmap in Hin as ([k p] & Heq & Hin).
      simpl in Heq. subst p. apply elem_of_map_to_list in Hin.
      destruct (wf_entries s Hwf a e k _ He Hin) as (b' & [= <-] & Hb).
      apply lookup_lt_is_Some in Hb as [v0 Hv0].
      assert (forall k', e !! k' = Some (Some b) -> k' = k) as Hinj.
      { intros k' Hk'. symmetry. by eapply (wf_inj s Hwf a e k k'). }
      rewrite (lookup_levels_after e m _ k b
                 (with_level (requested m k (level v0)) v0)); [|done..|].
      * rewrite (lookup_levels_after e m (objs s) k b v0) by done.
        cbn [level with_level]. by rewrite requested_idem.
      * by apply lookup_levels_after.
    + assert (forall k, e !! k <> Some (Some b)) as Hno.
      { intros k Hk. apply Hin. apply list_elem_of_fmap.
        exists (k, Some b). split; [done|]. by apply elem_of_map_to_list. }
      by rewrite !lookup_levels_after_other.
  - apply Hwf.
  - apply sound_handle_set_objs; [|done].
    destruct (same_shape_levels_after s (packages s (Some a)) m) as (_ & _ & Hlen & _).
    exact Hlen.
Qed.

(** ** Registration, handle by handle *)

(** The three ways [NewPackageLogger] goes. *)
Lemma NewPackageLogger_cases s (repo pkg : string) :
  wf s ->
  (exists p, package_of s repo pkg = Some p /\
     NewPackageLogger repo pkg s = (Return p, s)) \/
  (exists a e, repo_of s repo = Some (Some a) /\ maps s !! a = Some e /\
     e !! pkg = None /\
     NewPackageLogger repo pkg s =
       (Return (Some (length (objs s))), with_package a e pkg s)) \/
  (repo_of s repo = None /\
   NewPackageLogger repo pkg s =
     (Return (Some (length (objs s))), with_repo repo pkg s)).
Proof.
  intros Hwf. destruct (repo_of s repo) as [r|] eqn:Hr.
  - destruct (wf_handle s repo r Hwf Hr) as (a & e & -> & He & Hpk).
    destruct (e !! pkg) as [p0|] eqn:Hp0.
    + left. exists p0. split.
      * unfold package_of. rewrite Hr. simpl. by rewrite Hpk.
      * eapply NewPackageLogger_existing; [apply Hwf|done..].
    + right. left. exists a, e. split_and!; try done.
      apply NewPackageLogger_new_package; [apply Hwf|done..].
  - right. right. split; [done|].
    apply NewPackageLogger_new_repo; [apply Hwf|done].
Qed.

Lemma package_of_with_package s (a : nat) (e : gmap string (option nat))
    (pkg repo' k : string) :
  maps s !! a = Some e ->
  package_of (with_package a e pkg s) repo' k =
  if decide (repo_of s repo' = Some (Some a) /\ k = pkg)
  then Some (Some (length (objs s))) else package_of s repo' k.
Proof.
  intros He. unfold package_of.
  change (repo_of (with_package a e pkg s) repo') with (repo_of s repo').
  destruct (repo_of s repo') as [[a'|]|] eqn:Hr; cbn [mbind option_bind].
  - unfold packages, with_package. cbn [mbind option_bind maps set_maps set_objs].
    destruct (decide (a' = a)) as [->|Hne].
    + rewrite list_lookup_insert_eq by (by eapply lookup_lt_Some). rewrite He.
      simpl. destruct (decide (k = pkg)) as [->|Hk].
      * rewrite lookup_insert_eq. by rewrite decide_True.
      * rewrite lookup_insert_ne by done. rewrite decide_False; [done|tauto].
    + rewrite list_lookup_insert_ne by done.
      rewrite decide_False; [done|]. intros [[= ?] _]. done.
  - rewrite decide_False; [done|]. by intros [? _].
  - rewrite decide_False; [done|]. by intros [? _].
Qed.

Lemma repo_of_with_repo s (repo pkg repo' : string) :
  repo_of (with_repo repo pkg s) repo' =
  if decide (repo' = repo) then Some (Some (length (maps s)))
  else repo_of s repo'.
Proof.
  unfold repo_of, with_repo. cbn [logger repoMap mbind option_bind].
  destruct (decide (repo' = repo)) as [->|Hne].
  - by rewrite lookup_insert_eq.
  - rewrite lookup_insert_ne by done.
    destruct (repoMap (logger s)); [done|]. simpl. apply lookup_empty.
Qed.

Lemma package_of_with_repo s (repo pkg repo' k : string) :
  wf s ->
  package_of (with_repo repo pkg s) repo' k =
  if decide (repo' = repo)
  then (if decide (k = pkg) then Some (Some (length (objs s))) else None)
  else package_of s repo' k.
Proof.
  intros Hwf. unfold package_of. rewrite repo_of_with_repo.
  destruct (decide (repo' = repo)) as [->|Hne]; cbn [mbind option_bind].
  - unfold packages, with_repo. cbn [mbind option_bind maps].
    rewrite list_lookup_middle by done. simpl.
    destruct (decide (k = pkg)) as [->|Hk].
    + by rewrite lookup_singleton_eq.
    + by rewrite lookup_singleton_ne.
  - destruct (repo_of s repo') as [r|] eqn:Hr; cbn [mbind option_bind]; [|done].
    destruct (wf_handle s repo' r Hwf Hr) as (a & e & -> & He & _).
    unfold packages, with_repo. cbn [mbind option_bind maps].
    by rewrite (lookup_app_l_Some _ _ _ _ He), He.
Qed.

Lemma package_of_fresh s (repo k : string) :
  wf s -> package_of s repo k <> Some (Some (length (objs s))).
Proof.
  intros Hwf Hp.
  destruct (wf_package s repo k _ Hwf Hp) as (r & b & v & _ & _ & [= <-] & Hv).
  apply lookup_lt_Some in Hv. lia.
Qed.

(** Registration keeps the handles of the registered packages. *)
Lemma NewPackageLogger_keeps s (repo pkg repo' k : string) (q : option nat) :
  wf s -> package_of s repo' k = Some q ->
  package_of (NewPackageLogger repo pkg s).2 repo' k = Some q.
Proof.
  intros Hwf Hq.
  destruct (NewPackageLogger_cases s repo pkg Hwf)
    as [(p & _ & ->)|[(a & e & Hr & He & Hp & ->)|[Hr ->]]]; cbn [snd].
  - done.
  - rewrite package_of_with_package by done.
    rewrite decide_False; [done|]. intros [Hr' ->].
    unfold package_of in Hq. rewrite Hr' in Hq. simpl in Hq.
    unfold packages in Hq. simpl in Hq. rewrite He in Hq. simpl in Hq. congruence.
  - rewrite package_of_with_repo by done.
    rewrite decide_False; [done|]. intros ->.
    unfold package_of in Hq. by rewrite Hr in Hq.
Qed.

Lemma separated_init : separated (@init Formatter).
Proof. by split. Qed.

Lemma named_init : named (@init Formatter).
Proof. by intros repo k b v. Qed.

Lemma separated_same_shape s s' : same_shape s s' -> separated s -> separated s'.
Proof.
  intros Hsh [H1 H2]. split.
  - intros r1 r2 h. rewrite !(same_shape_repo_of s s') by done. apply H1.
  - intros r1 k1 r2 k2 p. rewrite !(same_shape_package_of s s') by done. apply H2.
Qed.

Lemma named_same_shape s s' : same_shape s s' -> named s -> named s'.
Proof.
  intros Hsh Hn repo k b v. rewrite (same_shape_package_of s s') by done.
  intros Hp Hv. destruct Hsh as (_ & _ & _ & Hpkg). specialize (Hpkg b).
  rewrite Hv in Hpkg. simpl in Hpkg.
  destruct (objs s !! b) as [v0|] eqn:Hv0; [|done].
  injection Hpkg as ->. by eapply Hn.
Qed.

Lemma separated_NewPackageLogger s (repo pkg : string) :
  wf s -> separated s -> separated (NewPackageLogger repo pkg s).2.
Proof.
  intros Hwf [H1 H2].
  destruct (NewPackageLogger_cases s repo pkg Hwf)
    as [(p & _ & ->)|[(a & e & Hr & He & Hp & ->)|[Hr ->]]]; cbn [snd].
  - by split.
  - split; [exact H1|].
    intros r1 k1 r2 k2 p. rewrite !package_of_with_package by done.
    destruct (decide (repo_of s r1 = Some (Some a) /\ k1 = pkg)) as [[Hr1 ->]|Hn1];
    destruct (decide (repo_of s r2 = Some (Some a) /\ k2 = pkg)) as [[Hr2 ->]|Hn2];
      intros Hp1 Hp2.
    + split; [by eapply H1|done].
    + injection Hp1 as <-. by apply package_of_fresh in Hp2.
    + injection Hp2 as <-. by apply package_of_fresh in Hp1.
    + by eapply H2.
  - split.
    + intros r1 r2 h. rewrite !repo_of_with_repo.
      destruct (decide (r1 = repo)) as [->|Hn1];
      destruct (decide (r2 = repo)) as [->|Hn2]; intros Hr1 Hr2.
      * done.
      * injection Hr1 as <-. apply repo_of_Some in Hr2 as (rm & Hrm & Hr2).
        destruct (wf_repos s Hwf rm r2 _ Hrm Hr2) as (a & [= <-] & Ha). lia.
      * injection Hr2 as <-. apply repo_of_Some in Hr1 as (rm & Hrm & Hr1).
        destruct (wf_repos s Hwf rm r1 _ Hrm Hr1) as (a & [= <-] & Ha). lia.
      * by eapply H1.
    + intros r1 k1 r2 k2 p. rewrite !package_of_with_repo by done.
      destruct (decide (r1 = repo)) as [->|Hn1];
      destruct (decide (r2 = repo)) as [->|Hn2];
      repeat case_decide; intros Hp1 Hp2; try done.
      * split; congruence.
      * injection Hp1 as <-. by apply package_of_fresh in Hp2.
      * injection Hp2 as <-. by apply package_of_fresh in Hp1.
      * by eapply H2.
Qed.

Lemma named_NewPackageLogger s (repo pk : string) :
  wf s -> named s -> named (NewPackageLogger repo pk s).2.
Proof.
  intros Hwf Hn.
  assert (forall repo' k b v, package_of s repo' k = Some (Some b) ->
            (objs s ++ [{| pkg := pk; level := INFO |}]) !! b = Some v ->
            pkg v = k) as Hold.
  { intros repo' k b v Hp Hv.
    destruct (wf_package s repo' k _ Hwf Hp) as (r & b' & v' & _ & _ & [= <-] & Hv').
    rewrite (lookup_app_l_Some _ _ _ _ Hv') in Hv. injection Hv as <-.
    by eapply Hn. }
  destruct (NewPackageLogger_cases s repo pk Hwf)
    as [(p & _ & ->)|[(a & e & Hr & He & Hp & ->)|[Hr ->]]]; cbn [snd].
  - done.
  - intros repo' k b v. rewrite package_of_with_package by done.
    unfold with_package. cbn [objs set_maps set_objs].
    case_decide as Hc; [|by apply Hold].
    destruct Hc as [_ ->]. intros [= <-]. rewrite list_lookup_middle by done.
    by intros [= <-].
  - intros repo' k b v. rewrite package_of_with_repo by done.
    unfold with_repo. cbn [objs].
    repeat case_decide; [| |by apply Hold]; [|done].
    subst k. intros [= <-]. rewrite list_lookup_middle by done.
    by intros [= <-].
Qed.

Lemma NewPackageLogger_registers s (repo pkg : string) :
  wf s ->
  exists p, (NewPackageLogger repo pkg s).1 = Return p /\
    package_of (NewPackageLogger repo pkg s).2 repo pkg = Some p /\
    formatter (logger (NewPackageLogger repo pkg s).2) = formatter (logger s) /\
    (p = Some (length (objs s)) \/ (NewPackageLogger repo pkg s).2 = s).
Proof.
  intros Hwf.
  destruct (NewPackageLogger_cases s repo pkg Hwf)
    as [(p & Hp & ->)|[(a & e & Hr & He & Hp & ->)|[Hr ->]]]; cbn [fst snd].
  - exists p. split_and!; try done. by right.
  - eexists. split; [done|]. rewrite package_of_with_package by done.
    rewrite decide_True by done. split_and!; try done. by left.
  - eexists. split; [done|]. rewrite package_of_with_repo by done.
    rewrite !decide_True by done. split_and!; try done. by left.
Qed.

(** Every call but [NewPackageLogger] and [SetFormatter] changes at most
    levels. *)
Lemma exec_shape (c : call Formatter) s :
  wf s ->
  (forall repo pkg, c <> call_NewPackageLogger repo pkg) ->
  (forall f, c <> call_SetFormatter f) ->
  same_shape s (exec c s).
Proof.
  intros Hwf Hnew Hfmt.
  destruct c as [l|repo0|repo0|r l|r conf|r m|f|repo0 pkg0]; cbn [exec].
  - rewrite SetGlobalLogLevel_eval by done.
    apply same_shape_set_objs;
      [apply length_foldl_assign_level|apply pkg_foldl_assign_level].
  - rewrite RepoLogger_eval by apply Hwf. apply same_shape_refl.
  - rewrite MustRepoLogger_eval by apply Hwf. apply same_shape_refl.
  - apply locked_keeps_shape; [|apply Hwf].
    apply keeps_shape_setRepoLogLevelInternal.
  - apply same_shape_refl.
  - apply locked_keeps_shape; [|apply Hwf].
    apply keeps_shape_bind.
    + unfold index. destruct (m !! "*");
        [apply keeps_shape_setRepoLogLevelInternal|apply keeps_shape_ret].
    + intros _. apply keeps_shape_for_each. intros [k v].
      apply keeps_shape_bind; [apply keeps_shape_entries|]. intros e.
      unfold index. destruct (e !! k);
        [apply keeps_shape_store_level|apply keeps_shape_ret].
  - by destruct (Hfmt f).
  - by destruct (Hnew repo0 pkg0).
Qed.

(** What every call keeps, beyond the invariant. *)
Lemma exec_more (c : call Formatter) s :
  wf s -> separated s -> named s ->
  separated (exec c s) /\ named (exec c s) /\
  (forall repo k q, package_of s repo k = Some q ->
     package_of (exec c s) repo k = Some q) /\
  formatter (logger (exec c s)) =
    match c with
    | call_SetFormatter g => g
    | _ => formatter (logger s)
    end.
Proof.
  intros Hwf Hsep Hn.
  assert ((forall repo pkg, c <> call_NewPackageLogger repo pkg) ->
          (forall f, c <> call_SetFormatter f) ->
          separated (exec c s) /\ named (exec c s) /\
          (forall repo k q, package_of s repo k = Some q ->
             package_of (exec c s) repo k = Some q) /\
          formatter (logger (exec c s)) = formatter (logger s)) as Hshape.
  { intros Hnew Hfmt. pose proof (exec_shape c s Hwf Hnew Hfmt) as Hsh.
    split; [by eapply separated_same_shape|].
    split; [by eapply named_same_shape|]. split.
    - intros repo k q. by rewrite (same_shape_package_of s (exec c s)).
    - destruct Hsh as (-> & _). done. }
  destruct c as [l|repo0|repo0|r l|r conf|r m|f|repo0 pkg0];
    try (by apply Hshape).
  - cbn [exec]. rewrite SetFormatter_eval by apply Hwf. cbn [snd].
    split; [by destruct Hsep|]. split; [exact Hn|]. by split.
  - cbn [exec]. split; [by apply separated_NewPackageLogger|].
    split; [by apply named_NewPackageLogger|].
    split; [intros repo k q; by apply NewPackageLogger_keeps|].
    by destruct (NewPackageLogger_registers s repo0 pkg0 Hwf) as (p & _ & _ & -> & _).
Qed.

Lemma run_app (cs cs' : list (call Formatter)) s :
  run (cs ++ cs') s = run cs' (run cs s).
Proof. unfold run. by rewrite foldl_app. Qed.

(** The invariants along a history that starts in any good state. *)
Lemma run_more (cs : list (call Formatter)) s :
  wf s -> separated s -> named s ->
  wf (run cs s) /\ separated (run cs s) /\ named (run cs s) /\
  (forall repo k q, package_of s repo k = Some q ->
     package_of (run cs s) repo k = Some q) /\
  formatter (logger (run cs s)) =
    foldl (fun f c => match c with call_SetFormatter g => g | _ => f end)
      (formatter (logger s)) cs.
Proof.
  intros Hwf Hsep Hn.
  induction cs as [|c cs (IHwf & IHsep & IHn & IHk & IHf)] using rev_ind; [done|].
  rewrite run_snoc.
  destruct (exec_step c (run cs s) IHwf) as [Hwf' _].
  destruct (exec_more c (run cs s) IHwf IHsep IHn) as (Hsep' & Hn' & Hk' & Hf').
  split; [done|]. split; [done|]. split; [done|]. split.
  - intros repo k q Hq. by apply Hk', IHk.
  - rewrite Hf', foldl_app. cbn [foldl]. rewrite <- IHf. by destruct c.
Qed.

Lemma run_init_more (cs : list (call Formatter)) :
  wf (run cs init) /\ separated (run cs init) /\ named (run cs init).
Proof.
  destruct (run_more cs init wf_init separated_init named_init)
    as (H1 & H2 & H3 & _). done.
Qed.

(** X10: after [NewPackageLogger] for a package of [repo], [RepoLogger]
    and [MustRepoLogger] return a handle for [repo] that is not [nil],
    with a [nil] error, and its map has the package under its name with
    the handle that [NewPackageLogger] returned. *)
Theorem NewPackageLogger_then_RepoLogger s (repo pkg : string) :
  wf s ->
  exists p s' a, NewPackageLogger repo pkg s = (Return p, s') /\
    RepoLogger repo s' = (Return (Some a, None), s') /\
    MustRepoLogger repo s' = (Return (Some a), s') /\
    packages s' (Some a) !! pkg = Some p /\
    is_Some (level_of s' p).
Proof.
  intros Hwf.
  destruct (NewPackageLogger_registers s repo pkg Hwf) as (p & Ho & Hp & _).
  destruct (NewPackageLogger_step s repo pkg Hwf) as (Hwf' & _ & _).
  destruct (NewPackageLogger repo pkg s) as [o s']. cbn [fst snd] in *. subst o.
  destruct (wf_package s' repo pkg p Hwf' Hp) as (r & b & v & Hr & Hk & -> & Hv).
  destruct (wf_handle s' repo r Hwf' Hr) as (a & e & -> & He & Hpk).
  exists (Some b), s', a. split; [done|].
  rewrite RepoLogger_eval, MustRepoLogger_eval by apply Hwf'. rewrite Hr.
  split; [done|]. split; [done|]. split; [done|].
  unfold level_of. cbn [mbind option_bind]. rewrite Hv. by eexists.
Qed.

(** X11: a handle, once given out, stays: after any further calls the
    package is still registered under the same names with the same
    handle, and the handle points to an object. *)
Theorem handles_are_stable (cs cs' : list (call Formatter))
    (repo k : string) (p : option nat) :
  package_of (run cs init) repo k = Some p ->
  package_of (run (cs ++ cs') init) repo k = Some p /\
  is_Some (level_of (run (cs ++ cs') init) p).
Proof.
  intros Hp. rewrite run_app.
  destruct (run_init_more cs) as (Hwf & Hsep & Hn).
  destruct (run_more cs' (run cs init) Hwf Hsep Hn) as (Hwf' & _ & _ & Hk & _).
  split; [by apply Hk|].
  destruct (wf_package _ repo k p Hwf' (Hk _ _ _ Hp)) as (r & b & v & _ & _ & -> & Hv).
  unfold level_of. cbn [mbind option_bind]. rewrite Hv. by eexists.
Qed.

(** X12: after any history, two different registered packages never share
    an object, so setting levels through the handle of one repository
    leaves the levels of the packages of every other repository alone. *)
Theorem repositories_are_isolated (cs : list (call Formatter))
    (repo repo' k : string) (r p : option nat) :
  repo_of (run cs init) repo = Some r -> repo' <> repo ->
  package_of (run cs init) repo' k = Some p ->
  (forall l, level_of (SetRepoLogLevel r l (run cs init)).2 p =
             level_of (run cs init) p) /\
  (forall m, level_of (SetLogLevel r m (run cs init)).2 p =
             level_of (run cs init) p).
Proof.
  intros Hr Hne Hp. destruct (run_init_more cs) as (Hwf & Hsep & Hn).
  set (s := run cs init) in *.
  pose proof (wf_sound_handle s repo r Hwf Hr) as Hs.
  destruct (wf_package s repo' k p Hwf Hp) as (r' & b & v & _ & _ & -> & Hv).
  assert (forall k0, packages s r !! k0 <> Some (Some b)) as Hno.
  { intros k0 Hk0. destruct Hne.
    apply (sep_packages s Hsep repo' k repo k0 (Some b)); [done|].
    unfold package_of. by rewrite Hr. }
  split.
  - intros l. rewrite SetRepoLogLevel_eval; [|apply Hwf|done].
    unfold level_of. cbn [mbind option_bind snd objs set_objs].
    rewrite lookup_foldl_assign_level. rewrite decide_False; [done|].
    intros Hin. apply list_elem_of_fmap in Hin as ([k0 p0] & Heq & Hin).
    simpl in Heq. subst p0. apply range_elem_of in Hin. by apply Hno in Hin.
  - intros m. rewrite SetLogLevel_eval; [|apply Hwf|done].
    unfold level_of. cbn [mbind option_bind snd objs set_objs].
    by rewrite lookup_levels_after_other.
Qed.

(** X13: after any history, one handle stands for one package: two
    registered names with the same handle are the same repository and the
    same package, and two repository names never share a map. *)
Theorem handles_are_distinct (cs : list (call Formatter)) :
  (forall r1 k1 r2 k2 p,
     package_of (run cs init) r1 k1 = Some p ->
     package_of (run cs init) r2 k2 = Some p -> r1 = r2 /\ k1 = k2) /\
  (forall r1 r2 h,
     repo_of (run cs init) r1 = Some h -> repo_of (run cs init) r2 = Some h ->
     r1 = r2).
Proof.
  destruct (run_init_more cs) as (_ & [H1 H2] & _). by split.
Qed.

(** X14: after any history, the object behind the handle of a registered
    package carries that package's name in its [pkg] field. *)
Theorem registered_objects_are_named (cs : list (call Formatter))
    (repo k : string) (p : option nat) :
  package_of (run cs init) repo k = Some p ->
  exists b v, p = Some b /\ objs (run cs init) !! b = Some v /\ pkg v = k.
Proof.
  intros Hp. destruct (run_init_more cs) as (Hwf & _ & Hn).
  destruct (wf_package _ repo k p Hwf Hp) as (r & b & v & _ & _ & -> & Hv).
  exists b, v. split; [done|]. split; [done|]. by eapply Hn.
Qed.

(** X15: [SetFormatter] returns and replaces the formatter only; no other
    call touches it, so after any history the formatter is the argument of
    the last [SetFormatter], and [nil] when there was none. *)
Theorem formatter_is_last_set (cs : list (call Formatter)) :
  formatter (logger (run cs init)) = last_formatter cs /\
  (forall f, exists s', SetFormatter f (run cs init) = (Return tt, s') /\
     formatter (logger s') = f /\
     repoMap (logger s') = repoMap (logger (run cs init)) /\
     maps s' = maps (run cs init) /\ objs s' = objs (run cs init) /\
     mu (logger s') = false).
Proof.
  destruct (run_more cs init wf_init separated_init named_init)
    as (Hwf & _ & _ & _ & Hf).
  split; [exact Hf|]. intros f. eexists.
  split; [apply SetFormatter_eval, Hwf|]. split_and!; try done. apply Hwf.
Qed.

(** ** Panics *)

Lemma call_outcome_eval (c : call Formatter) s :
  wf s -> receiver_ok s c ->
  call_outcome c s =
  match c with
  | call_MustRepoLogger repo =>
      match repo_of s repo with
      | Some _ => Return tt
      | None => Panic ("no packages registered for repo " +:+ repo)
      end
  | _ => Return tt
  end.
Proof.
  intros Hwf Hrec.
  destruct c as [l|repo0|repo0|r l|r conf|r m|f|repo0 pkg0];
    cbn [call_outcome receiver_ok] in *.
  - by rewrite SetGlobalLogLevel_eval.
  - rewrite RepoLogger_eval by apply Hwf. done.
  - rewrite MustRepoLogger_eval by apply Hwf. by destruct (repo_of s repo0).
  - rewrite SetRepoLogLevel_eval; [done|apply Hwf|by apply wf_receiver_sound].
  - done.
  - rewrite SetLogLevel_eval; [done|apply Hwf|by apply wf_receiver_sound].
  - rewrite SetFormatter_eval by apply Hwf. done.
  - by destruct (NewPackageLogger_registers s repo0 pkg0 Hwf) as (p & -> & _).
Qed.

(** X16: after any history, a call whose receiver is [nil] or a made map
    returns, except [MustRepoLogger] for a repository nothing was
    registered under, which panics with the error of [RepoLogger]; no call
    waits for the mutex, and the mutex is free again afterwards, also
    after the panic. A handle that [RepoLogger] gave out is such a
    receiver. *)
Theorem only_MustRepoLogger_panics (cs : list (call Formatter))
    (c : call Formatter) :
  receiver_ok (run cs init) c ->
  (forall repo, c = call_MustRepoLogger repo -> ~ registered_in cs repo ->
     call_outcome c (run cs init) =
     Panic ("no packages registered for repo " +:+ repo)) /\
  ((forall repo, c = call_MustRepoLogger repo -> registered_in cs repo) ->
     call_outcome c (run cs init) = Return tt) /\
  mu (logger (exec c (run cs init))) = false /\
  (forall repo r l m, repo_of (run cs init) repo = Some r ->
     receiver_ok (run cs init) (call_SetRepoLogLevel r l) /\
     receiver_ok (run cs init) (call_SetLogLevel r m)).
Proof.
  intros Hrec. destruct (run_invariant cs) as [Hwf Hrepo].
  rewrite (call_outcome_eval c _ Hwf Hrec). split_and!.
  - intros repo -> Hno.
    destruct (repo_of (run cs init) repo) as [r|] eqn:Hr; [|done].
    destruct Hno. apply Hrepo. by exists r.
  - intros Hreg. destruct c; try done.
    destruct (Hrepo repo) as [_ Hr]. by destruct (Hr (Hreg repo eq_refl)) as [r ->].
  - by destruct (exec_step c _ Hwf) as [[Hmu _ _ _] _].
  - intros repo r l m Hr.
    destruct (wf_handle _ repo r Hwf Hr) as (a & e & -> & He & _).
    apply lookup_lt_Some in He. split; by intros a' [= <-].
Qed.

(** ** Where levels come from *)

Lemma keeps_levels_ret (P : Z -> Prop) {A : Type} (a : A) :
  keeps_levels P (ret (Formatter := Formatter) a).
Proof. by intros s. Qed.

Lemma keeps_levels_bind (P : Z -> Prop) {A B : Type}
    (m : M Formatter A) (k : A -> M Formatter B) :
  keeps_levels P m -> (forall a, keeps_levels P (k a)) -> keeps_levels P (m ≫= k).
Proof.
  intros Hm Hk s Hs. specialize (Hm s Hs).
  unfold mbind, M_bind, bind. destruct (m s) as [[a|v|] s1]; simpl in *; try done.
  by apply Hk.
Qed.

Lemma keeps_levels_for_each (P : Z -> Prop) {A : Type} (l : list A)
    (body : A -> M Formatter unit) :
  (forall x, x ∈ l -> keeps_levels P (body x)) -> keeps_levels P (for_each l body).
Proof.
  induction l as [|x l IH]; intros Hbody; [apply keeps_levels_ret|].
  apply (keeps_levels_bind P (body x) (fun _ => for_each l body)).
  - apply Hbody, list_elem_of_here.
  - intros _. apply IH. intros y Hy. by apply Hbody, list_elem_of_further.
Qed.

Lemma keeps_levels_entries (P : Z -> Prop) (r : option nat) :
  keeps_levels P (entries (Formatter := Formatter) r).
Proof.
  intros s Hs. unfold entries. destruct r as [a|]; [|done].
  by destruct (maps s !! a).
Qed.

Lemma keeps_levels_store_level (P : Z -> Prop) (p : option nat) (l : Z) :
  P l -> keeps_levels P (store_level (Formatter := Formatter) p l).
Proof.
  intros Hl s Hs. unfold store_level. destruct p as [b|]; [|done].
  destruct (objs s !! b) as [v|] eqn:Hv; [|done].
  unfold levels_in in *. cbn [snd objs set_objs].
  apply Forall_insert; [exact Hs|exact Hl].
Qed.

Lemma keeps_levels_setRepoLogLevelInternal (P : Z -> Prop) (r : option nat) (l : Z) :
  P l -> keeps_levels P (setRepoLogLevelInternal (Formatter := Formatter) r l).
Proof.
  intros Hl. apply keeps_levels_bind; [apply keeps_levels_entries|]. intros e.
  apply keeps_levels_for_each. intros [k v] _. by apply keeps_levels_store_level.
Qed.

(** Taking and releasing the mutex around a body touches no level. *)
Lemma keeps_levels_locked (P : Z -> Prop) {A : Type} (body : M Formatter A) :
  keeps_levels P body -> keeps_levels P (Lock ;; defer Unlock body).
Proof.
  intros Hbody s Hs. unfold mbind, M_bind, bind, Lock, defer, Unlock.
  destruct (mu (logger s)); [done|].
  specialize (Hbody (set_mu true s) Hs).
  destruct (body (set_mu true s)) as [o s1]. cbn [snd] in Hbody.
  destruct o; destruct (mu (logger s1)); done.
Qed.

(** A call whose levels are in [P] keeps all levels in [P]. *)
Lemma exec_levels (P : Z -> Prop) (c : call Formatter) s :
  wf s -> P INFO -> Forall P (levels_of_call c) ->
  levels_in P s -> levels_in P (exec c s).
Proof.
  intros Hwf HI Hc Hs.
  destruct c as [l|repo0|repo0|r l|r conf|r m|f|repo0 pkg0];
    cbn [exec levels_of_call] in *.
  - rewrite Forall_singleton in Hc.
    apply keeps_levels_locked; [|done].
    apply keeps_levels_bind; [intros s' Hs'; exact Hs'|]. intros rm.
    apply keeps_levels_for_each. intros [k r] _.
    by apply keeps_levels_setRepoLogLevelInternal.
  - rewrite RepoLogger_eval by apply Hwf. done.
  - rewrite MustRepoLogger_eval by apply Hwf. done.
  - rewrite Forall_singleton in Hc.
    apply keeps_levels_locked; [|done].
    by apply keeps_levels_setRepoLogLevelInternal.
  - done.
  - rewrite Forall_forall in Hc.
    assert (forall k v, m !! k = Some v -> P v) as Hm.
    { intros k v Hk. apply Hc. apply list_elem_of_fmap. exists (k, v).
      split; [done|]. by apply elem_of_map_to_list. }
    apply keeps_levels_locked; [|done].
    apply keeps_levels_bind.
    + unfold index. destruct (m !! "*") as [l|] eqn:Hstar;
        [|apply keeps_levels_ret].
      apply keeps_levels_setRepoLogLevelInternal. by eapply Hm.
    + intros _. apply keeps_levels_for_each. intros [k v] Hin.
      apply range_elem_of in Hin.
      apply keeps_levels_bind; [apply keeps_levels_entries|]. intros e.
      unfold index. destruct (e !! k); [|apply keeps_levels_ret].
      apply keeps_levels_store_level. by eapply Hm.
  - rewrite SetFormatter_eval by apply Hwf. done.
  - destruct (NewPackageLogger_cases s repo0 pkg0 Hwf)
      as [(p & _ & ->)|[(a & e & Hr & He & Hp & ->)|[Hr ->]]]; cbn [snd].
    + done.
    + unfold levels_in, with_package. cbn [objs set_maps set_objs].
      apply Forall_app. split; [done|]. by apply Forall_singleton.
    + unfold levels_in, with_repo. cbn [objs].
      apply Forall_app. split; [done|]. by apply Forall_singleton.
Qed.

Lemma run_levels (P : Z -> Prop) (cs : list (call Formatter)) :
  P INFO -> (forall c l, c ∈ cs -> l ∈ levels_of_call c -> P l) ->
  levels_in P (run cs init).
Proof.
  intros HI. induction cs as [|c cs IH] using rev_ind; intros Hcs.
  - by apply Forall_nil.
  - rewrite run_snoc. destruct (run_invariant cs) as [Hwf _].
    apply exec_levels; [done|done| |].
    + apply Forall_forall. intros l Hl. apply (Hcs c); [|done].
      apply elem_of_app. right. apply list_elem_of_here.
    + apply IH. intros c' l Hc' Hl. apply (Hcs c'); [|done].
      apply elem_of_app. by left.
Qed.

(** X17: no level is made up: after any history a stored level is INFO,
    the level a package starts with, or a level some call of the history
    carried. So when the calls carry the seven constants only, every
    stored level is one of them and [Char] of it returns. *)
Theorem stored_levels_come_from_calls (cs : list (call Formatter))
    (p : option nat) (l : Z) :
  level_of (run cs init) p = Some l ->
  (l = INFO \/ exists c, c ∈ cs /\ l ∈ levels_of_call c) /\
  ((forall c l', c ∈ cs -> l' ∈ levels_of_call c -> l' ∈ Levels) ->
   l ∈ Levels /\ exists ch, Char l = Return ch).
Proof.
  intros Hl.
  assert (forall P : Z -> Prop, levels_in P (run cs init) -> P l) as Hin.
  { intros P HP. unfold level_of in Hl. destruct p as [b|]; [|done].
    cbn [mbind option_bind] in Hl. apply fmap_Some in Hl as (v & Hv & ->).
    unfold levels_in in HP. rewrite Forall_forall in HP.
    apply HP. by eapply list_elem_of_lookup_2. }
  split.
  - apply (Hin (fun l => l = INFO \/ exists c, c ∈ cs /\ l ∈ levels_of_call c)).
    apply run_levels; [by left|]. intros c l' Hc Hl'. right. by exists c.
  - intros Hcs.
    assert (l ∈ Levels) as HL.
    { apply (Hin (fun l => l ∈ Levels)). apply run_levels; [|done].
      apply elem_of_Levels. tauto. }
    split; [done|]. apply elem_of_Levels in HL.
    destruct HL as [->|[->|[->|[->|[->|[->| ->]]]]]]; by eexists.
Qed.

(** ** Parsing, then applying *)

(** X18: applying a parsed configuration gives a package of the receiver
    the level of the last token with its name, else the level of the last
    token with the name *, else the level it had. *)
Theorem parse_then_apply s (repo : string) (r : option nat) (conf : string)
    (m : gmap string Z) :
  wf s -> repo_of s repo = Some r ->
  ParseLogLevelConfig r conf = (Some m, None) ->
  exists s', SetLogLevel r m s = (Return tt, s') /\
    forall k p, packages s r !! k = Some p ->
      exists old, level_of s p = Some old /\
        level_of s' p =
        Some (match last (filter (fun t => token_name t = k) (Split conf ","%char)) with
              | Some t => token_level t
              | None =>
                  match last (filter (fun t => token_name t = "*")
                                (Split conf ","%char)) with
                  | Some t => token_level t
                  | None => old
                  end
              end).
Proof.
  intros Hwf Hr Hm. unfold ParseLogLevelConfig in Hm.
  pose proof (loop_success_inv _ _ _ Hm) as Hall.
  rewrite loop_success in Hm by done. injection Hm as <-.
  eexists. split.
  { apply SetLogLevel_eval; [apply Hwf|by eapply wf_sound_handle]. }
  intros k p Hk.
  destruct (SetLogLevel_levels s repo r (foldl add_token ∅ (Split conf ","%char))
              Hwf Hr k p Hk) as (old & Hold & ->).
  exists old. split; [done|]. f_equal. unfold requested.
  rewrite !lookup_foldl_add_token.
  destruct (last (filter (fun t => token_name t = k) (Split conf ","%char)));
    [done|].
  by destruct (last (filter (fun t => token_name t = "*") (Split conf ","%char))).
Qed.

End registry_more.

(** ** The order of visiting a map does not matter *)

Lemma foldl_assign_level_ext (l : Z) (ps1 ps2 : list (option nat))
    (os : list packageLogger) :
  (forall x : nat, Some x ∈ ps1 <-> Some x ∈ ps2) ->
  foldl (assign_level l) os ps1 = foldl (assign_level l) os ps2.
Proof.
  intros Hps. apply list_eq. intros x. rewrite !lookup_foldl_assign_level.
  destruct (decide (Some x ∈ ps1)) as [H1|H1];
    destruct (decide (Some x ∈ ps2)) as [H2|H2]; try done.
  - by apply Hps in H1.
  - by apply Hps in H2.
Qed.

Lemma elem_of_range_values (o : RangeOrder) (e : gmap string (option nat)) (x : nat) :
  Some x ∈ (range (RangeOrder := o) e).*2 <-> exists k, e !! k = Some (Some x).
Proof.
  rewrite list_elem_of_fmap. split.
  - intros ([k p] & Heq & Hin). simpl in Heq. subst p.
    apply range_elem_of in Hin. by exists k.
  - intros [k Hk]. exists (k, Some x). split; [done|]. by apply range_elem_of.
Qed.

Lemma elem_of_global_targets {Formatter : Type} (o : RangeOrder)
    (s : state Formatter) (x : nat) :
  Some x ∈ global_targets (order := o) s <->
  exists repo r k, default ∅ (repoMap (logger s)) !! repo = Some r /\
    packages s r !! k = Some (Some x).
Proof.
  unfold global_targets. rewrite list_elem_of_bind. split.
  - intros ([repo r] & Hin & Hr). apply range_elem_of in Hr.
    apply elem_of_range_values in Hin as [k Hk]. by exists repo, r, k.
  - intros (repo & r & k & Hr & Hk). exists (repo, r). split.
    + apply elem_of_range_values. by exists k.
    + by apply range_elem_of.
Qed.

(** X19: the three level-setting calls leave the same state behind
    whatever the order in which the maps are visited. *)
Theorem level_setting_ignores_map_order {Formatter : Type} (o1 o2 : RangeOrder)
    (s : state Formatter) (repo : string) (r : option nat) :
  wf s -> repo_of s repo = Some r ->
  (forall l, SetGlobalLogLevel (order := o1) l s = SetGlobalLogLevel (order := o2) l s) /\
  (forall l, SetRepoLogLevel (order := o1) r l s = SetRepoLogLevel (order := o2) r l s) /\
  (forall m, SetLogLevel (order := o1) r m s = SetLogLevel (order := o2) r m s).
Proof.
  intros Hwf Hr.
  pose proof (wf_sound_handle s repo r Hwf Hr) as Hs.
  split_and!.
  - intros l. rewrite !SetGlobalLogLevel_eval by done. do 2 f_equal.
    apply foldl_assign_level_ext. intros x.
    by rewrite !elem_of_global_targets.
  - intros l. rewrite !SetRepoLogLevel_eval by (done || apply Hwf). do 2 f_equal.
    apply foldl_assign_level_ext. intros x. by rewrite !elem_of_range_values.
  - intros m. rewrite !SetLogLevel_eval by (done || apply Hwf). do 2 f_equal.
    destruct (wf_handle s repo r Hwf Hr) as (a & e & -> & He & Hp).
    rewrite Hp. apply list_eq. intros b.
    destruct (decide (Some b ∈ (map_to_list e).*2)) as [Hin|Hin].
    + apply list_elem_of_fmap in Hin as ([k p] & Heq & Hin).
      simpl in Heq. subst p. apply elem_of_map_to_list in Hin.
      destruct (wf_entries s Hwf a e k _ He Hin) as (b' & [= <-] & Hb).
      apply lookup_lt_is_Some in Hb as [v0 Hv0].
      assert (forall k', e !! k' = Some (Some b) -> k' = k) as Hinj.
      { intros k' Hk'. symmetry. by eapply (wf_inj s Hwf a e k k'). }
      by rewrite !(lookup_levels_after e m (objs s) k b v0).
    + assert (forall k, e !! k <> Some (Some b)) as Hno.
      { intros k Hk. apply Hin. apply list_elem_of_fmap.
        exists (k, Some b). split; [done|]. by apply elem_of_map_to_list. }
      by rewrite !lookup_levels_after_other.
Qed.

(** ** The further properties at concrete inputs *)

Lemma SetRepoLogLevel_sets_repo_witness :
  wf state_R_ab /\ repo_of state_R_ab "R" = Some (Some 0%nat) /\
  exists s', SetRepoLogLevel (order := listed_order) (Some 0%nat) WARNING
               state_R_ab = (Return tt, s') /\
    level_of s' (Some 1%nat) = Some WARNING.
Proof.
  split; [exact wf_state_R_ab|]. split; [reflexivity|].
  destruct (SetRepoLogLevel_sets_repo (order := listed_order) state_R_ab "R"
              (Some 0%nat) WARNING wf_state_R_ab eq_refl)
    as (s' & Hev & _ & Hall & _).
  exists s'. split; [exact Hev|]. exact (Hall "b" (Some 1%nat) eq_refl).
Defined.

Lemma SetLogLevel_star_only_witness :
  wf state_R_ab /\ repo_of state_R_ab "R" = Some (Some 0%nat) /\
  SetLogLevel (order := listed_order) (Some 0%nat) {["*" := DEBUG]} state_R_ab =
  SetRepoLogLevel (order := listed_order) (Some 0%nat) DEBUG state_R_ab.
Proof.
  split; [exact wf_state_R_ab|]. split; [reflexivity|].
  exact (SetLogLevel_star_only (order := listed_order) state_R_ab "R"
           (Some 0%nat) DEBUG wf_state_R_ab eq_refl).
Defined.

Lemma nil_receiver_is_harmless_witness :
  mu (logger state_R_ab) = false /\
  SetLogLevel (order := listed_order) None star_and_unknown state_R_ab =
    (Return tt, state_R_ab).
Proof.
  split; [reflexivity|].
  exact (proj1 (proj2 (nil_receiver_is_harmless (order := listed_order)
                         state_R_ab "unknown" eq_refl)) star_and_unknown).
Defined.

Lemma SetLogLevel_idempotent_witness :
  wf state_R_ab /\ repo_of state_R_ab "R" = Some (Some 0%nat) /\
  exists s1, SetLogLevel (order := listed_order) (Some 0%nat) star_and_unknown
               state_R_ab = (Return tt, s1) /\
    SetLogLevel (order := listed_order) (Some 0%nat) star_and_unknown s1 =
      (Return tt, s1).
Proof.
  split; [exact wf_state_R_ab|]. split; [reflexivity|].
  exact (SetLogLevel_idempotent (order := listed_order) state_R_ab "R"
           (Some 0%nat) star_and_unknown wf_state_R_ab eq_refl).
Defined.

Lemma ParseLevel_sound_witness :
  ParseLevel "W" = (WARNING, None) /\ "W" ∈ forms_of WARNING.
Proof.
  split; [reflexivity|].
  exact (proj1 (proj2 (proj2 (ParseLevel_sound "W" WARNING None eq_refl))) eq_refl).
Defined.

Lemma ParseLogLevelConfig_success_iff_witness :
  Forall token_ok (Split "a=INFO" ","%char) /\
  exists m, ParseLogLevelConfig None "a=INFO" = (Some m, None).
Proof.
  assert (Forall token_ok (Split "a=INFO" ","%char)) as Hall
    by (constructor; [exact token_ok_a_INFO|constructor]).
  split; [exact Hall|].
  exact (proj2 (proj1 (ParseLogLevelConfig_success_iff None "a=INFO")) Hall).
Defined.

Lemma ParseLogLevelConfig_last_wins_witness :
  ParseLogLevelConfig None "a=INFO,b=E,a=DEBUG" =
    (Some (<["a" := DEBUG]> (<["b" := ERROR]> (<["a" := INFO]> ∅))), None) /\
  (<["a" := DEBUG]> (<["b" := ERROR]> (<["a" := INFO]> ∅)) : gmap string Z) !! "a" =
    Some DEBUG.
Proof.
  split; [reflexivity|].
  exact (proj1 (proj2 (ParseLogLevelConfig_last_wins None "a=INFO,b=E,a=DEBUG"
                  _ eq_refl))
           ["a=INFO"; "b=E"] "a=DEBUG" [] eq_refl (Forall_nil_2 _)).
Defined.

Lemma ParseLogLevelConfig_names_levels_witness :
  ParseLogLevelConfig None "a=INFO,b=E" =
    (Some (<["b" := ERROR]> (<["a" := INFO]> ∅)), None) /\
  has_byte ","%char "b" = false /\ ERROR ∈ Levels.
Proof.
  split; [reflexivity|].
  destruct (ParseLogLevelConfig_names_levels None "a=INFO,b=E" _ "b" ERROR
              eq_refl eq_refl) as (H1 & _ & H3 & _).
  split; [exact H1|exact H3].
Defined.

Lemma ParseLogLevelConfig_permutation_witness :
  ParseLogLevelConfig None "*=ERROR,b=DEBUG" =
  ParseLogLevelConfig None "b=DEBUG,*=ERROR".
Proof.
  assert (Split "*=ERROR,b=DEBUG" ","%char ≡ₚ Split "b=DEBUG,*=ERROR" ","%char)
    as Hperm by apply perm_swap.
  assert (NoDup (token_name <$> Split "*=ERROR,b=DEBUG" ","%char)) as Hnd.
  { apply NoDup_cons. split; [|apply NoDup_singleton].
    intros H. apply list_elem_of_singleton in H. discriminate. }
  assert (Forall token_ok (Split "*=ERROR,b=DEBUG" ","%char)) as Hok.
  { constructor; [by exists "*", "ERROR", ERROR|].
    constructor; [by exists "b", "DEBUG", DEBUG|constructor]. }
  exact (proj1 (ParseLogLevelConfig_permutation None _ _ Hperm Hnd Hok)).
Defined.

Lemma NewPackageLogger_then_RepoLogger_witness :
  wf (@init unit) /\
  exists p s' a, NewPackageLogger "repoA" "pkgA" (@init unit) = (Return p, s') /\
    RepoLogger "repoA" s' = (Return (Some a, None), s').
Proof.
  split; [exact wf_init|].
  destruct (NewPackageLogger_then_RepoLogger (@init unit) "repoA" "pkgA" wf_init)
    as (p & s' & a & H1 & H2 & _).
  exists p, s', a. split; [exact H1|exact H2].
Defined.

Lemma handles_are_stable_witness :
  package_of (run (order := listed_order) [call_NewPackageLogger "R" "a"] (@init unit))
    "R" "a" = Some (Some 0%nat) /\
  package_of (run (order := listed_order) history_R init) "R" "a" = Some (Some 0%nat).
Proof.
  split; [reflexivity|].
  exact (proj1 (handles_are_stable (order := listed_order)
                  [call_NewPackageLogger "R" "a"]
                  [call_SetGlobalLogLevel DEBUG; call_NewPackageLogger "R" "b";
                   call_MustRepoLogger "unknown"]
                  "R" "a" (Some 0%nat) eq_refl)).
Defined.

Lemma Q_is_not_R : "Q" <> "R".
Proof. discriminate. Qed.

Lemma repositories_are_isolated_witness :
  repo_of (run (order := listed_order) history_RQ init) "R" = Some (Some 0%nat) /\
  "Q" <> "R" /\
  package_of (run (order := listed_order) history_RQ init) "Q" "b" = Some (Some 1%nat) /\
  level_of (SetRepoLogLevel (order := listed_order) (Some 0%nat) TRACE
              (run (order := listed_order) history_RQ init)).2 (Some 1%nat) =
  level_of (run (order := listed_order) history_RQ init) (Some 1%nat).
Proof.
  split; [reflexivity|]. split; [exact Q_is_not_R|]. split; [reflexivity|].
  exact (proj1 (repositories_are_isolated (order := listed_order) history_RQ
                  "R" "Q" "b" (Some 0%nat) (Some 1%nat) eq_refl Q_is_not_R eq_refl)
           TRACE).
Defined.

Lemma handles_are_distinct_witness :
  package_of (run (order := listed_order) history_RQ init) "Q" "b" = Some (Some 1%nat) /\
  forall r k, package_of (run (order := listed_order) history_RQ init) r k =
                Some (Some 1%nat) -> "Q" = r /\ "b" = k.
Proof.
  split; [reflexivity|]. intros r k Hp.
  exact (proj1 (handles_are_distinct (order := listed_order) history_RQ)
           "Q" "b" r k (Some 1%nat) eq_refl Hp).
Defined.

Lemma registered_objects_are_named_witness :
  package_of (run (order := listed_order) history_RQ init) "Q" "b" = Some (Some 1%nat) /\
  exists b v, Some 1%nat = Some b /\
    objs (run (order := listed_order) history_RQ init) !! b = Some v /\ pkg v = "b".
Proof.
  split; [reflexivity|].
  exact (registered_objects_are_named (order := listed_order) history_RQ
           "Q" "b" (Some 1%nat) eq_refl).
Defined.

Lemma only_MustRepoLogger_panics_witness :
  receiver_ok (run (order := listed_order) history_R init)
    (call_MustRepoLogger "unknown") /\
  ~ registered_in history_R "unknown" /\
  call_outcome (order := listed_order) (call_MustRepoLogger "unknown")
    (run (order := listed_order) history_R init) =
  Panic "no packages registered for repo unknown".
Proof.
  split; [exact I|]. split; [exact unknown_not_registered|].
  exact (proj1 (only_MustRepoLogger_panics (order := listed_order) history_R
                  (call_MustRepoLogger "unknown") I)
           "unknown" eq_refl unknown_not_registered).
Defined.

Lemma stored_levels_come_from_calls_witness :
  level_of (run (order := listed_order) history_R init) (Some 0%nat) = Some DEBUG /\
  (DEBUG = INFO \/ exists c, c ∈ history_R /\ DEBUG ∈ levels_of_call c).
Proof.
  split; [reflexivity|].
  exact (proj1 (stored_levels_come_from_calls (order := listed_order) history_R
                  (Some 0%nat) DEBUG eq_refl)).
Defined.

Lemma parse_then_apply_witness :
  wf state_R_ab /\ repo_of state_R_ab "R" = Some (Some 0%nat) /\
  exists s', SetLogLevel (order := listed_order) (Some 0%nat)
               (<["b" := DEBUG]> (<["*" := ERROR]> ∅)) state_R_ab = (Return tt, s') /\
    level_of s' (Some 0%nat) = Some ERROR.
Proof.
  split; [exact wf_state_R_ab|]. split; [reflexivity|].
  destruct (parse_then_apply (order := listed_order) state_R_ab "R" (Some 0%nat)
              "*=ERROR,b=DEBUG" _ wf_state_R_ab eq_refl eq_refl)
    as (s' & Hev & Hall).
  exists s'. split; [exact Hev|].
  destruct (Hall "a" (Some 0%nat) eq_refl) as (old & _ & Hl). exact Hl.
Defined.

Lemma level_setting_ignores_map_order_witness :
  wf state_R_ab /\ repo_of state_R_ab "R" = Some (Some 0%nat) /\
  SetLogLevel (order := listed_order) (Some 0%nat) star_and_unknown state_R_ab =
  SetLogLevel (order := reversed_order) (Some 0%nat) star_and_unknown state_R_ab.
Proof.
  split; [exact wf_state_R_ab|]. split; [reflexivity|].
  exact (proj2 (proj2 (level_setting_ignores_map_order listed_order reversed_order
                         state_R_ab "R" (Some 0%nat) wf_state_R_ab eq_refl))
           star_and_unknown).
Defined.
